(** * mpi_test: the join stub of [main.cpp] and the partition helpers of
      [helpers.cpp], embedded and compared with the repository's specification.

    Layout of the development:
    - [Machine]: the C++ scalar types the code uses ([int], [int64_t], [double]);
    - [Helpers]: [get_start], [get_end], [get_node_portion] and
      [generate_example_inputs] from [helpers.cpp];
    - [Join]: [local_join_impl] and [parallel_join_impl] from [main.cpp], and the
      SPMD run of the join over all ranks;
    - [Generators]: [_gen_range32], [_gen_random], [_gen_random_int32] and
      [generate_random_inputs] from [helpers.cpp];
    - the vocabulary the properties are stated in;
    - [Driver]: [main] from [main.cpp], as the lines a rank prints;
    - lemmas: binary64 division of integers, the exact ceiling, the helpers on
      lengths that convert exactly, the loop of the local join;
    - the properties C1 to C10 of the specification;
    - further properties of the helpers, the generators, the join and the
      driver, X1 to X20. *)

From Stdlib Require Import ZArith List Bool Lia PeanoNat.
From Stdlib Require String DecimalString.
From Stdlib Require Import SpecFloat.
From Stdlib Require PrimFloat FloatOps FloatAxioms Uint63.
Import ListNotations.
Local Open Scope Z_scope.

(* ================================================================== *)
(** * Machine scalars *)
(* ================================================================== *)

Module Machine.

(** [int] and [int64_t] are two's-complement integers; a value is kept as the
    [Z] it denotes and every operation that can leave the range is followed by
    its wrap-around. *)
Definition wrap (w : Z) (z : Z) : Z := (z + 2 ^ (w - 1)) mod 2 ^ w - 2 ^ (w - 1).
Definition wrap32 : Z -> Z := wrap 32.
Definition wrap64 : Z -> Z := wrap 64.

Definition INT64_MIN : Z := - 2 ^ 63.
Definition INT64_MAX : Z := 2 ^ 63 - 1.

(** [double] is IEEE 754 binary64: the Standard Library's executable
    specification of floating-point numbers at precision 53 and [emax] 1024
    (the one the kernel's primitive floats are specified against). *)
Definition prec : Z := 53.
Definition emax : Z := 1024.
Definition double : Type := spec_float.

(** [(double) z] for an integer [z]: the nearest double, ties to even. *)
Definition double_of_int (z : Z) : double := binary_normalize prec emax z 0 false.

(** [x / y] on doubles. *)
Definition double_div (x y : double) : double := SFdiv prec emax x y.

(** The integer [ceil] of the dyadic number [m * 2^e]. *)
Definition dyadic_ceil (m e : Z) : Z :=
  if 0 <=? e then m * 2 ^ e else - ((- m) / 2 ^ (- e)).

(** The integer part (truncation toward zero) of [m * 2^e]. *)
Definition dyadic_trunc (m e : Z) : Z :=
  if 0 <=? e then m * 2 ^ e else Z.quot m (2 ^ (- e)).

(** [ceil(x)] of <cmath>: the least integral double not below [x]. A finite
    double with a non-negative exponent is integral already; otherwise
    [|x| < 2^53] and the integer ceiling is representable. Zeros, infinities
    and NaN are returned as they are; a negative [x] above [-1] gives [-0.0]. *)
Definition ceil (x : double) : double :=
  match x with
  | S754_finite s m e =>
      if 0 <=? e then x
      else binary_normalize prec emax (dyadic_ceil (cond_Zopp s (Zpos m)) e) 0 s
  | _ => x
  end.

(** [(int64_t) x]: truncation toward zero. Out of range (and for NaN and the
    infinities) the conversion is undefined in C++; the model returns what the
    x86-64 instruction cvttsd2si delivers there, INT64_MIN. *)
Definition int64_of_double (x : double) : Z :=
  match x with
  | S754_zero _ => 0
  | S754_finite s m e =>
      let z := dyadic_trunc (cond_Zopp s (Zpos m)) e in
      if (INT64_MIN <=? z) && (z <=? INT64_MAX) then z else INT64_MIN
  | _ => INT64_MIN
  end.

End Machine.

(* ================================================================== *)
(** * helpers.cpp *)
(* ================================================================== *)

Module Helpers.
Import Machine.

(** [int64_t div_chunk = (int64_t)ceil(total / ((double)num_pes));]
    [total] is converted to [double] by the usual arithmetic conversions. *)
Definition div_chunk (total num_pes : Z) : Z :=
  int64_of_double (ceil (double_div (double_of_int total) (double_of_int num_pes))).

(** [get_start]: [std::min(total, node_id * div_chunk)], the product taken in
    [int64_t]. *)
Definition get_start (total num_pes node_id : Z) : Z :=
  let div_chunk := div_chunk total num_pes in
  let start := Z.min total (wrap64 (node_id * div_chunk)) in
  start.

(** [get_end]: [std::min(total, (node_id + 1) * div_chunk)]; [node_id + 1] is
    an [int] addition, the product is taken in [int64_t]. *)
Definition get_end (total num_pes node_id : Z) : Z :=
  let div_chunk := div_chunk total num_pes in
  let end_ := Z.min total (wrap64 (wrap32 (node_id + 1) * div_chunk)) in
  end_.

Definition get_node_portion (total num_pes node_id : Z) : Z :=
  wrap64 (get_end total num_pes node_id - get_start total num_pes node_id).

(** The range constructor [std::vector<T>{v.begin() + first, v.begin() + last}]. *)
Definition slice {A : Type} (v : list A) (first last : Z) : list A :=
  firstn (Z.to_nat (last - first)) (skipn (Z.to_nat first) v).

(** The four vectors a rank holds: the build key column and the probe
    relation's key column with its two payload columns. *)
Record rank_input : Type := mk_input {
  in_keys1 : list Z;
  in_keys2 : list Z;
  in_data0 : list double;
  in_data1 : list Z
}.

Definition keys1_global : list Z := [0; 1; 1; 2; 1; 0].
Definition keys2_global : list Z := [1; 0; 4; 2; 5; 3].
Definition data0_global : list double :=
  map double_of_int [1; 2; 3; 4; 5; 6].
Definition data1_global : list Z := [4; 1; 2; 3; 0; 5].

(** [generate_example_inputs]: the four output parameters as a record. *)
Definition generate_example_inputs (rank n_pes : Z) : rank_input :=
  let left_table_size := Z.of_nat (length keys1_global) in
  let keys1 := slice keys1_global (get_start left_table_size n_pes rank)
                                  (get_end left_table_size n_pes rank) in
  let right_table_size := Z.of_nat (length keys2_global) in
  let keys2 := slice keys2_global (get_start right_table_size n_pes rank)
                                  (get_end right_table_size n_pes rank) in
  let data0 := slice data0_global (get_start right_table_size n_pes rank)
                                  (get_end right_table_size n_pes rank) in
  let data1 := slice data1_global (get_start right_table_size n_pes rank)
                                  (get_end right_table_size n_pes rank) in
  mk_input keys1 keys2 data0 data1.

End Helpers.

(* ================================================================== *)
(** * main.cpp *)
(* ================================================================== *)

Module Join.
Import Machine Helpers.

(** Reading [v[i]] past the end of a vector is undefined behaviour: a
    computation that does so has no result ([None]). *)
Definition UB (A : Type) : Type := option A.

Definition ret {A : Type} (a : A) : UB A := Some a.
Definition bind {A B : Type} (c : UB A) (k : A -> UB B) : UB B :=
  match c with
  | Some a => k a
  | None => None
  end.

Notation "x <- c ;; k" := (bind c (fun x => k))
  (at level 61, c at next level, right associativity).

(** [v[i]] *)
Definition at_ {A : Type} (v : list A) (i : nat) : UB A := nth_error v i.

(** [v[i]] for an [int] index [i]: the index converts to [size_t], a negative
    one to a value past the end of every vector. *)
Definition at_int {A : Type} (v : list A) (i : Z) : UB A :=
  if i <? 0 then None else at_ v (Z.to_nat i).

(** [int index = p - keys2.begin();]: the distance of the iterator [p] from
    the start of the vector, a [ptrdiff_t], narrowed to [int]. *)
Definition index_of (p : nat) : Z := wrap32 (Z.of_nat p).

(** [v.push_back(x)] *)
Definition push_back {A : Type} (v : list A) (x : A) : list A := v ++ [x].

(** [std::find(v.begin(), v.end(), k)] as the position of the iterator it
    returns: the index of the first element equal to [k], or [length v]
    (that is, [v.end()]) when there is none. *)
Fixpoint std_find (v : list Z) (k : Z) : nat :=
  match v with
  | [] => O
  | x :: v' => if x =? k then O else S (std_find v' k)
  end.

(** The [std::tuple] of the three result vectors. *)
Definition chunk : Type := (list Z * list double * list Z)%type.

Definition empty_chunk : chunk := ([], [], []).

(** One iteration of the [for (const auto& k : keys1)] loop on the three
    result vectors. The key pushed is [*p], read through the iterator; the
    payloads are read at [index], the position of [p] kept in an [int]. *)
Definition join_step (keys2 : list Z) (data0 : list double) (data1 : list Z)
    (acc : chunk) (k : Z) : UB chunk :=
  let '(keys_result, data0_result, data1_result) := acc in
  let p := std_find keys2 k in
  if (p <? length keys2)%nat then
    let index := index_of p in
    kp <- at_ keys2 p ;;
    d0 <- at_int data0 index ;;
    d1 <- at_int data1 index ;;
    ret (push_back keys_result kp,
         push_back data0_result d0,
         push_back data1_result d1)
  else ret acc.

Fixpoint join_loop (keys2 : list Z) (data0 : list double) (data1 : list Z)
    (keys1 : list Z) (acc : chunk) : UB chunk :=
  match keys1 with
  | [] => ret acc
  | k :: rest =>
      acc' <- join_step keys2 data0 data1 acc k ;;
      join_loop keys2 data0 data1 rest acc'
  end.

Definition local_join_impl (keys1 keys2 : list Z) (data0 : list double)
    (data1 : list Z) : UB chunk :=
  join_loop keys2 data0 data1 keys1 empty_chunk.

Definition parallel_join_impl (keys1 keys2 : list Z) (data0 : list double)
    (data1 : list Z) : UB chunk :=
  local_join_impl keys1 keys2 data0 data1.

(** ** The SPMD run *)

(** Every rank calls [parallel_join_impl] on its own chunks, as [main] does. *)
Definition join_on (i : rank_input) : UB chunk :=
  parallel_join_impl (in_keys1 i) (in_keys2 i) (in_data0 i) (in_data1 i).

Definition spmd_run (inputs : list rank_input) : list (UB chunk) :=
  map join_on inputs.

(** An output row, and the rows of a chunk as [main] prints them: index by
    index up to the length of the key vector. *)
Definition row : Type := (Z * double * Z)%type.

Definition rows_of (c : chunk) : list row :=
  let '(ks, a, b) := c in combine (combine ks a) b.

Definition rows_of_result (r : UB chunk) : list row :=
  match r with
  | Some c => rows_of c
  | None => []
  end.

(** The global output: the rows of all ranks together. *)
Definition global_rows (outs : list (UB chunk)) : list row :=
  flat_map rows_of_result outs.

Definition row_key (r : row) : Z := fst (fst r).

(** The number of rows that carry key [k]. *)
Definition rows_with_key (k : Z) (rs : list row) : nat :=
  length (filter (fun r => row_key r =? k) rs).

(** The number of occurrences of [k] in a key column held by all ranks. *)
Definition occurrences (k : Z) (cols : list (list Z)) : nat :=
  length (filter (fun x => x =? k) (concat cols)).

(** The example of [generate_example_inputs] run on [n_pes] ranks. *)
Definition ranks (n_pes : Z) : list Z := map Z.of_nat (seq 0 (Z.to_nat n_pes)).

Definition example_inputs (n_pes : Z) : list rank_input :=
  map (fun rank => generate_example_inputs rank n_pes) (ranks n_pes).

Definition example_run (n_pes : Z) : list (UB chunk) :=
  spmd_run (example_inputs n_pes).

End Join.

(* ================================================================== *)
(** * helpers.cpp: the input generators *)
(* ================================================================== *)

Module Generators.
Import Machine Helpers Join.

(** [(uint64_t) z] *)
Definition to_uint64 (z : Z) : Z := z mod 2 ^ 64.

(** The bytes a process can address: the user half of the 48-bit virtual
    address space of x86-64. *)
Definition address_space : Z := 2 ^ 47.

(** [std::vector<T> data(size)]: [size] value-initialised elements of
    [sizeof] bytes each. The constructor throws, and the program ends with no
    result, when [size] exceeds [max_size()] (a negative [int64_t] converts
    to such a [size_t]) and when the allocation fails; a request that does
    not fit the address space fails on every run. A request that fits is
    taken to be granted. *)
Definition vector_of_size {A : Type} (sizeof : Z) (zero : A) (size : Z)
    : UB (list A) :=
  if (size <? 0) || (address_space <=? size * sizeof) then None
  else ret (repeat zero (Z.to_nat size)).

(** [v[i] = x], the index a [size_t]; writing past the end is undefined. *)
Definition store {A : Type} (v : list A) (i : Z) (x : A) : UB (list A) :=
  if (0 <=? i) && (i <? Z.of_nat (length v))
  then ret (firstn (Z.to_nat i) v ++ x :: skipn (S (Z.to_nat i)) v)
  else None.

(** [n] iterations of a loop body from counter value [i], the counter
    incremented after each. *)
Fixpoint iterate {S : Type} (n : nat) (i : Z) (body : Z -> S -> UB S) (s : S)
    : UB S :=
  match n with
  | O => ret s
  | Datatypes.S n' => s' <- body i s ;; iterate n' (i + 1) body s'
  end.

(** [for (i = lo; i < hi; i++) body], for a body that leaves [i] and [hi]
    alone: [hi - lo] iterations when [lo < hi], none otherwise. *)
Definition for_loop {S : Type} (lo hi : Z) (body : Z -> S -> UB S) (s : S)
    : UB S :=
  iterate (Z.to_nat (hi - lo)) lo body s.

(** [_gen_range32]: this rank's chunk of the vector [0, 1, ..., size - 1]. The
    counter [i] is a [uint64_t], compared with [end] converted to [uint64_t];
    [i - start] is computed in [uint64_t]. *)
Definition _gen_range32 (size rank n_pes : Z) : UB (list Z) :=
  let start := get_start size n_pes rank in
  let end_ := get_end size n_pes rank in
  let size := get_node_portion size n_pes rank in
  data <- vector_of_size 4 0 size ;;
  for_loop (to_uint64 start) (to_uint64 end_)
    (fun i data => store data (to_uint64 (i - to_uint64 start)) (wrap32 i))
    data.

(** The random generators. [std::random_device] and the engine seeded from
    it are outside the program: the seeded engine is a parameter of each
    generator, and so are the two distributions of <random>, each a function
    from its bounds and the engine to the value drawn and the engine after
    the draw. *)
Section Random.

Variable engine : Type.
Variable uniform_real_distribution : double -> double -> engine -> double * engine.
Variable uniform_int_distribution : Z -> Z -> engine -> Z * engine.

(** [std::generate(first, last, gen)]: every element is assigned, in order,
    the value of the next call of [gen]. *)
Fixpoint std_generate {A : Type} (data : list A) (gen : engine -> A * engine)
    (g : engine) : list A * engine :=
  match data with
  | [] => ([], g)
  | _ :: rest =>
      let '(x, g') := gen g in
      let '(rest', g'') := std_generate rest gen g' in
      (x :: rest', g'')
  end.

Definition _gen_random (size rank n_pes : Z) (r_engine : engine)
    : UB (list double) :=
  let size := get_node_portion size n_pes rank in
  let r_dist := uniform_real_distribution (double_of_int 0) (double_of_int 1) in
  data <- vector_of_size 8 (S754_zero false) size ;;
  ret (fst (std_generate data r_dist r_engine)).

(** The bounds of [std::uniform_int_distribution<>] are [int]s. *)
Definition _gen_random_int32 (high size rank n_pes : Z) (r_engine : engine)
    : UB (list Z) :=
  let size := get_node_portion size n_pes rank in
  let r_dist := uniform_int_distribution 0 (wrap32 high) in
  data <- vector_of_size 4 0 size ;;
  ret (fst (std_generate data r_dist r_engine)).

(** [generate_random_inputs]: the four output parameters as a record; each
    of the three random columns draws from an engine of its own. *)
Definition generate_random_inputs (rank n_pes : Z) (e1 e2 e3 : engine)
    : UB rank_input :=
  let n := 10 in
  keys1 <- _gen_random_int32 6 n rank n_pes e1 ;;
  keys2 <- _gen_random_int32 6 n rank n_pes e2 ;;
  data0 <- _gen_random n rank n_pes e3 ;;
  data1 <- _gen_range32 n rank n_pes ;;
  ret (mk_input keys1 keys2 data0 data1).

End Random.

End Generators.

Import Machine Helpers Join Generators.

(* ================================================================== *)
(** * Vocabulary of the properties *)
(* ================================================================== *)

(** The quotient the specification writes as the ceiling of [total / P]. *)
Definition ceil_div (total p : Z) : Z := (total + p - 1) / p.

(** Index [i] lies in the interval of rank [r]. *)
Definition owns (total num_pes r i : Z) : Prop :=
  get_start total num_pes r <= i < get_end total num_pes r.

(** The three parallel vectors that hold a list of rows. *)
Definition chunk_of_rows (rs : list row) : chunk :=
  (map (fun r => fst (fst r)) rs, map (fun r => snd (fst r)) rs, map snd rs).

(** [j] is the smallest index at which [keys2] holds [k]. *)
Definition first_match (keys2 : list Z) (k : Z) (j : nat) : Prop :=
  nth_error keys2 j = Some k /\
  forall j', (j' < j)%nat -> nth_error keys2 j' <> Some k.

(** What one build key contributes to the output: nothing when the probe
    side does not hold it, and otherwise the single probe row at its first
    match. *)
Inductive emits (keys2 : list Z) (data0 : list double) (data1 : list Z)
    (k : Z) : list row -> Prop :=
| emits_nothing : ~ In k keys2 -> emits keys2 data0 data1 k []
| emits_first (j : nat) (a : double) (b : Z) :
    first_match keys2 k j ->
    nth_error data0 j = Some a -> nth_error data1 j = Some b ->
    emits keys2 data0 data1 k [(k, a, b)].

(** A build key with a match in [keys2] for which [index], the position of
    the first match as an [int], is no index of a payload vector: it is
    negative or at or past the end of [data0] or of [data1]. *)
Definition reads_out_of_bounds (keys2 : list Z) (data0 : list double)
    (data1 : list Z) (k : Z) : Prop :=
  (std_find keys2 k < length keys2)%nat /\
  (index_of (std_find keys2 k) < 0 \/
   Z.of_nat (length data0) <= index_of (std_find keys2 k) \/
   Z.of_nat (length data1) <= index_of (std_find keys2 k)).

(** A build key whose first match lies at a position that a payload vector
    does not have. *)
Definition first_match_past_end (keys2 : list Z) (data0 : list double)
    (data1 : list Z) (k : Z) : Prop :=
  (std_find keys2 k < length keys2)%nat /\
  (length data0 <= std_find keys2 k \/ length data1 <= std_find keys2 k)%nat.

(** A probe row of the worked example, its [double] payload given by the
    integer it equals. *)
Definition example_row (k a b : Z) : row := (k, double_of_int a, b).

Definition row_eqb (r1 r2 : row) : bool :=
  let '(k1, a1, b1) := r1 in
  let '(k2, a2, b2) := r2 in
  (k1 =? k2) && SFeqb a1 a2 && (b1 =? b2).

(** The number of copies of [r] in a list of rows. *)
Definition copies (r : row) (rs : list row) : nat :=
  length (filter (row_eqb r) rs).

(** The chunks of rank 0 when the worked example runs on two ranks. *)
Definition rank0_of_2 : rank_input :=
  mk_input [0; 1; 1] [1; 0; 4] (map double_of_int [1; 2; 3]) [4; 1; 2].

(** The chunks of rank 1 when the worked example runs on two ranks. *)
Definition rank1_of_2 : rank_input :=
  mk_input [2; 1; 0] [2; 5; 3] (map double_of_int [4; 5; 6]) [3; 0; 5].

Definition rank0_of_2_output : chunk :=
  chunk_of_rows [example_row 0 2 1; example_row 1 1 4; example_row 1 1 4].

(** One rank; key 1 once in the build column and twice in the probe column. *)
Definition duplicate_probe_inputs : list rank_input :=
  [mk_input [1] [1; 1] (map double_of_int [10; 20]) [100; 200]].

(** Two ranks; key 1 once in the build column of rank 0 and once in the probe
    column of rank 1. *)
Definition separated_inputs : list rank_input :=
  [mk_input [1] [] [] []; mk_input [] [1] (map double_of_int [10]) [100]].

(** What the loop appends for one build key, as a list of rows: nothing when
    there is no match, and otherwise the key with the two payloads at the
    [int] index of the first match; no result when that index is no index of
    a payload vector. *)
Definition emit_rows (keys2 : list Z) (data0 : list double) (data1 : list Z)
    (k : Z) : UB (list row) :=
  let p := std_find keys2 k in
  if (p <? length keys2)%nat then
    a <- at_int data0 (index_of p) ;; b <- at_int data1 (index_of p) ;;
    ret [(k, a, b)]
  else ret [].

(** The probe row at the first match of [k], at the position of the match
    itself: nothing when there is no match, no result when a payload vector
    has no element at that position. *)
Definition first_match_rows (keys2 : list Z) (data0 : list double)
    (data1 : list Z) (k : Z) : UB (list row) :=
  let p := std_find keys2 k in
  if (p <? length keys2)%nat then
    a <- at_ data0 p ;; b <- at_ data1 p ;; ret [(k, a, b)]
  else ret [].

(** The rows the whole loop appends, build key after build key. *)
Fixpoint join_rows (keys2 : list Z) (data0 : list double) (data1 : list Z)
    (keys1 : list Z) : UB (list row) :=
  match keys1 with
  | [] => ret []
  | k :: rest =>
      rs <- emit_rows keys2 data0 data1 k ;;
      rs' <- join_rows keys2 data0 data1 rest ;;
      ret (rs ++ rs')
  end.

(** A probe relation of [n + 1] rows: [n] rows with key 0 and payloads 0.0
    and 0, then one row with key 1 and payloads 1.0 and 1. *)
Definition far_keys (n : nat) : list Z := repeat 0 n ++ [1].
Definition far_data0 (n : nat) : list double :=
  repeat (double_of_int 0) n ++ [double_of_int 1].
Definition far_data1 (n : nat) : list Z := repeat 0 n ++ [1].

(** Two chunks one after the other, column by column. *)
Definition chunk_app (c c' : chunk) : chunk :=
  let '(ks, a, b) := c in
  let '(ks', a', b') := c' in
  (ks ++ ks', a ++ a', b ++ b').

(** [k] occurs in the key column [keys]. *)
Definition has_key (keys : list Z) (k : Z) : bool := existsb (Z.eqb k) keys.

(** The rows of a probe relation held in three parallel columns. *)
Definition probe_rows (keys2 : list Z) (data0 : list double) (data1 : list Z)
    : list row :=
  combine (combine keys2 data0) data1.

(** The inner equi-join of a build key column with probe rows, as the
    nested loop computes it: for each build key in order, every probe row
    with that key, in probe order. *)
Definition equi_join (keys1 : list Z) (probe : list row) : list row :=
  flat_map (fun k => filter (fun r => row_key r =? k) probe) keys1.

(** A stand-in for a seeded engine with its distributions, to run the
    random generators on: the engine is a counter, the integer distribution
    walks through [[a, b]] and the real one returns its lower bound. *)
Definition counter_int (a b g : Z) : Z * Z := (a + g mod (b - a + 1), g + 1).
Definition counter_real (a b : double) (g : Z) : double * Z := (a, g + 1).

(** The values of [n] successive calls of a generator, from engine state
    [g] on. *)
Fixpoint draws {E A : Type} (gen : E -> A * E) (g : E) (n : nat) : list A :=
  match n with
  | O => []
  | S n' => let '(x, g') := gen g in x :: draws gen g' n'
  end.

(** The sum of a list of integers. *)
Definition Zsum (l : list Z) : Z := fold_right Z.add 0 l.

(** The integers [lo, lo + 1, ..., hi - 1]. *)
Definition Zrange (lo hi : Z) : list Z :=
  map (fun k => lo + Z.of_nat k) (seq 0 (Z.to_nat (hi - lo))).

(** [a / b] computed by the processor on the doubles nearest to two
    non-negative integers below [2^63], read back as a [spec_float]. *)
Definition hardware_quotient (a b : Z) : double :=
  FloatOps.Prim2SF
    (PrimFloat.div (PrimFloat.of_uint63 (Uint63.of_Z a))
                   (PrimFloat.of_uint63 (Uint63.of_Z b))).

(** Rounding to nearest, ties to even, of the quotient [n / d] ([0 < d]). *)
Definition rne (n d : Z) : Z :=
  match 2 * (n mod d) ?= d with
  | Lt => n / d
  | Eq => if Z.even (n / d) then n / d else n / d + 1
  | Gt => n / d + 1
  end.

(** A rounded mantissa in [[2^52, 2^53]] at exponent [e], in canonical form:
    [2^53] is carried into the next binade. *)
Definition normal53 (s : bool) (m e : Z) : double :=
  if m =? 2 ^ 53 then S754_finite s (Z.to_pos (2 ^ 52)) (e + 1)
  else S754_finite s (Z.to_pos m) e.

(* ================================================================== *)
(** * main.cpp: the driver *)
(* ================================================================== *)

Module Driver.
Import Machine Helpers Join Generators.
Import String DecimalString.
Local Open Scope string_scope.

(** [std::to_string(int)]: the decimal digits, a minus sign before a
    negative number. *)
Definition to_string_int (z : Z) : string := NilZero.string_of_int (Z.to_int z).

Fixpoint fill (n : nat) (c : string) : string :=
  match n with
  | O => ""
  | S n' => c ++ fill n' c
  end.

(** The conversion [%Ns] of [printf]: the string, with blanks before it up
    to the width [N]. *)
Definition pad (width : nat) (s : string) : string :=
  fill (width - String.length s) " " ++ s.

(** [std::to_string(double)], which is [printf]'s [%f]: the value rounded
    to six decimals (to nearest, ties to even) in fixed notation. *)
Definition to_string_double (x : double) : string :=
  match x with
  | S754_zero s => (if s then "-" else "") ++ "0.000000"
  | S754_infinity s => (if s then "-" else "") ++ "inf"
  | S754_nan => "nan"
  | S754_finite s m e =>
      let micro :=
        if (0 <=? e)%Z then (Zpos m * 2 ^ e * 10 ^ 6)%Z
        else rne (Zpos m * 10 ^ 6) (2 ^ (- e)) in
      let frac := to_string_int (micro mod 10 ^ 6) in
      (if s then "-" else "") ++ to_string_int (micro / 10 ^ 6) ++ "."
        ++ fill (6 - String.length frac) "0" ++ frac
  end.

(** The body of the first [for] loop of [main]: the line of index [i] of
    the input table. *)
Definition input_line (k1 k2 : list Z) (d1 : list double) (d2 : list Z)
    (i : nat) : UB string :=
  left <- (if (i <? List.length k1)%nat then
             x <- at_ k1 i ;; ret ("| " ++ pad 5 (to_string_int x) ++ " |  ")
           else ret "           ") ;;
  right <- (if (i <? List.length k2)%nat then
              x <- at_ k2 i ;; a <- at_ d1 i ;; b <- at_ d2 i ;;
              ret ("| " ++ pad 5 (to_string_int x) ++ " | "
                        ++ pad 9 (to_string_double a) ++ " | "
                        ++ pad 5 (to_string_int b) ++ " |")
            else ret "") ;;
  ret (left ++ right).

(** The body of the second [for] loop: the line of index [i] of the output
    table. *)
Definition output_line (o_keys : list Z) (o1 : list double) (o2 : list Z)
    (i : nat) : UB string :=
  x <- at_ o_keys i ;; a <- at_ o1 i ;; b <- at_ o2 i ;;
  ret ("| " ++ pad 3 (to_string_int x) ++ " | "
            ++ pad 9 (to_string_double a) ++ " | "
            ++ pad 5 (to_string_int b) ++ " |").

(** [for (int i = 0; i < n; i++)] around a body that prints one line. *)
Definition print_lines (n : nat) (line : nat -> UB string)
    (out : list string) : UB (list string) :=
  for_loop 0 (Z.of_nat n)
    (fun i out => l <- line (Z.to_nat i) ;; ret (List.app out (List.cons l List.nil)))
    out.

(** [std::cout << "Rank " << rank << what << std::endl] *)
Definition rank_line (rank : Z) (what : string) : string :=
  "Rank " ++ to_string_int rank ++ what.

Definition input_title : string := ", input:".
Definition output_title : string := ", output:".
Definition input_header : string := "| keys1 |  | keys2 |   data0   | data1 |".
Definition output_header : string := "| key |   data0   | data1 |".

(** [main] on one rank, as the lines it writes to standard output; [rank]
    and [n_pes] are what [MPI_Comm_rank] and [MPI_Comm_size] store. The
    barriers and the sleeps order the output of the ranks in time and write
    nothing. *)
Definition main (rank n_pes : Z) : UB (list string) :=
  let i := generate_example_inputs rank n_pes in
  let k1 := in_keys1 i in
  let k2 := in_keys2 i in
  let d1 := in_data0 i in
  let d2 := in_data1 i in
  let out := List.cons (rank_line rank input_title)
               (List.cons input_header List.nil) in
  let max_keys := Nat.max (List.length k1) (List.length k2) in
  out <- print_lines max_keys (input_line k1 k2 d1 d2) out ;;
  join_output <- parallel_join_impl k1 k2 d1 d2 ;;
  let '(o_keys, o1, o2) := join_output in
  let out := List.app out
               (List.cons (rank_line rank output_title)
                  (List.cons output_header List.nil)) in
  print_lines (List.length o_keys) (output_line o_keys o1 o2) out.

(** An output row as [main] prints it. *)
Definition row_line (r : row) : string :=
  let '(k, a, b) := r in
  "| " ++ pad 3 (to_string_int k) ++ " | "
       ++ pad 9 (to_string_double a) ++ " | "
       ++ pad 5 (to_string_int b) ++ " |".

End Driver.

Import Driver.

(* ================================================================== *)
(** * Binary64 arithmetic on the integers the helpers meet *)
(* ================================================================== *)

(** Name the quotient and remainder of [n] by [d] and keep only the
    division equation and the bound on the remainder. *)
Ltac euclid n d :=
  let q := fresh "q" in let r := fresh "r" in
  let Hq := fresh "Hdiv" in let Hr := fresh "Hmod" in
  pose proof (Z.div_mod n d ltac:(lia)) as Hq;
  pose proof (Z.mod_pos_bound n d ltac:(lia)) as Hr;
  set (q := n / d) in *; set (r := n mod d) in *; clearbody q r.

Section Binary64.

Lemma digits2_pos_size (p : positive) : digits2_pos p = Pos.size p.
Proof. induction p; simpl; congruence. Qed.

Lemma digits2_log2 (p : positive) :
  Zpos (digits2_pos p) = Z.log2 (Zpos p) + 1.
Proof.
  rewrite digits2_pos_size.
  destruct p; simpl; try rewrite Pos.add_1_r; reflexivity.
Qed.

(** The number of binary digits of a positive number, from its bounds. *)
Lemma digits2_bounds (p : positive) (k : Z) :
  2 ^ (k - 1) <= Zpos p < 2 ^ k -> 1 <= k -> Zpos (digits2_pos p) = k.
Proof.
  intros Hb Hk. rewrite digits2_log2.
  assert (Z.log2 (Zpos p) = k - 1); [|lia].
  apply Z.log2_unique; [lia|].
  replace (Z.succ (k - 1)) with k by lia. exact Hb.
Qed.

Lemma digits2_spec (p : positive) :
  2 ^ (Zpos (digits2_pos p) - 1) <= Zpos p < 2 ^ Zpos (digits2_pos p).
Proof.
  rewrite digits2_log2.
  replace (Z.log2 (Zpos p) + 1 - 1) with (Z.log2 (Zpos p)) by lia.
  apply (Z.log2_spec (Zpos p)). lia.
Qed.

Lemma iter_xO_pow2 (p k : positive) :
  Zpos (Pos.iter xO p k) = Zpos p * 2 ^ Zpos k.
Proof.
  induction k using Pos.peano_ind.
  - cbn [Pos.iter]. rewrite Pos2Z.inj_xO. lia.
  - rewrite Pos.iter_succ, Pos2Z.inj_xO, IHk, Pos2Z.inj_succ, Z.pow_succ_r; lia.
Qed.

(** A mantissa of exactly 53 digits with an exponent in the normal range is
    left alone by the rounding step. *)
Lemma binary_round_aux_canonical (s : bool) (m : positive) (e : Z) :
  Zpos (digits2_pos m) = 53 -> -1074 <= e <= 971 ->
  binary_round_aux prec emax s (Zpos m) e loc_Exact = S754_finite s m e.
Proof.
  intros Hd He.
  unfold binary_round_aux, shr_fexp. cbn [shr_record_of_loc Zdigits2].
  rewrite Hd.
  assert (Hf : fexp prec emax (53 + e) - e = 0)
    by (unfold fexp, SpecFloat.emin, prec, emax; lia).
  rewrite Hf. cbn [shr shr_m loc_of_shr_record round_nearest_even Zdigits2].
  rewrite Hd, Hf. cbn [shr shr_m].
  replace (e <=? emax - prec) with true; [reflexivity|].
  symmetry. apply Z.leb_le. unfold emax, prec. lia.
Qed.

Lemma loc_of_shr_record_of_loc (m : Z) (l : location) :
  loc_of_shr_record (shr_record_of_loc m l) = l /\
  shr_m (shr_record_of_loc m l) = m.
Proof. destruct l as [|[]]; split; reflexivity. Qed.

(** The location computed by the division against the remainder. *)
Lemma round_new_location (q d r : Z) :
  0 < d -> 0 <= r < d ->
  round_nearest_even q (new_location d r) =
  match 2 * r ?= d with
  | Lt => q
  | Eq => if Z.even q then q else q + 1
  | Gt => q + 1
  end.
Proof.
  intros Hd Hr. unfold new_location.
  destruct (Z.even d) eqn:Hev.
  - unfold new_location_even.
    destruct (Z.eqb_spec r 0) as [->|Hr0].
    + replace (2 * 0 ?= d) with Lt by (symmetry; apply Z.compare_lt_iff; lia).
      reflexivity.
    + cbn [round_nearest_even]. destruct (2 * r ?= d); reflexivity.
  - unfold new_location_odd.
    destruct (Z.eqb_spec r 0) as [->|Hr0].
    + replace (2 * 0 ?= d) with Lt by (symmetry; apply Z.compare_lt_iff; lia).
      reflexivity.
    + assert (Hodd : d <> 2 * r).
      { intros ->. rewrite Z.even_mul in Hev. discriminate. }
      destruct (Z.compare_spec (2 * r + 1) d) as [H|H|H];
        destruct (Z.compare_spec (2 * r) d) as [H'|H'|H']; try lia;
        reflexivity.
Qed.

Lemma shr_1_pos (q : Z) (r0 s0 : bool) :
  0 < q ->
  shr_1 (Build_shr_record q r0 s0) =
  Build_shr_record (q / 2) (Z.odd q) (r0 || s0).
Proof.
  intros Hq. rewrite <- Z.div2_div.
  destruct q as [|p|p]; try lia.
  destruct p; reflexivity.
Qed.

Lemma fexp_normal (d e : Z) :
  -1000 <= e <= 900 -> 53 <= d <= 54 -> fexp prec emax (d + e) - e = d - 53.
Proof. unfold fexp, SpecFloat.emin, prec, emax. lia. Qed.

Lemma Zdigits2_bounds (z k : Z) :
  2 ^ (k - 1) <= z < 2 ^ k -> 1 <= k -> Zdigits2 z = k.
Proof.
  intros Hb Hk. assert (0 < 2 ^ (k - 1)) by (apply Z.pow_pos_nonneg; lia).
  destruct z as [|p|p]; try lia.
  cbn [Zdigits2]. now apply digits2_bounds.
Qed.

Lemma finish_round (s : bool) (m e : Z) :
  2 ^ 52 <= m <= 2 ^ 53 -> -1000 <= e <= 900 ->
  (let '(mrs, e') := shr_fexp prec emax m e loc_Exact in
   match shr_m mrs with
   | Z0 => S754_zero s
   | Zpos m' => if e' <=? emax - prec then S754_finite s m' e' else S754_infinity s
   | Zneg _ => S754_nan
   end) = normal53 s m e.
Proof.
  intros Hm He. unfold normal53, shr_fexp.
  destruct (Z.eqb_spec m (2 ^ 53)) as [->|Hne].
  - rewrite (Zdigits2_bounds (2 ^ 53) 54) by lia.
    rewrite fexp_normal by lia.
    change (54 - 53) with 1. cbn [shr shr_record_of_loc iter_pos].
    rewrite shr_1_pos by lia. cbn [shr_m].
    change (2 ^ 53 / 2) with (Zpos (Z.to_pos (2 ^ 52))).
    replace (e + 1 <=? emax - prec) with true; [reflexivity|].
    symmetry; apply Z.leb_le; unfold emax, prec; lia.
  - rewrite (Zdigits2_bounds m 53) by lia.
    rewrite fexp_normal by lia.
    change (53 - 53) with 0. cbn [shr shr_record_of_loc shr_m].
    destruct m as [|p|p]; try lia. cbn [Z.to_pos].
    replace (e <=? emax - prec) with true; [reflexivity|].
    symmetry; apply Z.leb_le; unfold emax, prec; lia.
Qed.

Lemma rne_le (n d k : Z) : 0 < d -> n <= k * d -> rne n d <= k.
Proof.
  intros Hd Hn. unfold rne. euclid n d.
  destruct (Z.compare_spec (2 * r) d); try destruct (Z.even q); nia.
Qed.

Lemma rne_ge (n d k : Z) : 0 < d -> k * d <= n -> k <= rne n d.
Proof.
  intros Hd Hn. unfold rne. euclid n d.
  destruct (Z.compare_spec (2 * r) d); try destruct (Z.even q); nia.
Qed.

(** More than half way above [k] rounds to above [k]. *)
Lemma rne_gt (n d k : Z) : 0 < d -> d < 2 * (n - k * d) -> k < rne n d.
Proof.
  intros Hd Hn. unfold rne. euclid n d.
  destruct (Z.compare_spec (2 * r) d); try destruct (Z.even q); nia.
Qed.

Lemma rne_exact (d k : Z) : 0 < d -> rne (k * d) d = k.
Proof.
  intros Hd. unfold rne. rewrite Z.mod_mul, Z.div_mul by lia.
  destruct (Z.compare_spec (2 * 0) d); lia || reflexivity.
Qed.

(** [rne] from a quotient and remainder already at hand. *)
Lemma rne_div_mod (q d r : Z) :
  0 < d -> 0 <= r < d ->
  rne (q * d + r) d =
  match 2 * r ?= d with
  | Lt => q
  | Eq => if Z.even q then q else q + 1
  | Gt => q + 1
  end.
Proof.
  intros Hd Hr. unfold rne.
  assert (Hq : (q * d + r) / d = q)
    by (symmetry; apply (Z.div_unique_pos _ _ q r); lia).
  assert (Hm : (q * d + r) mod d = r)
    by (symmetry; apply (Z.mod_unique_pos _ _ q r); lia).
  rewrite Hq, Hm. reflexivity.
Qed.

(** The same against twice the divisor: one more bit of the quotient moves
    into the remainder. *)
Lemma rne_div_mod_half (q d r : Z) :
  0 < d -> 0 <= r < d -> 0 <= q ->
  rne (q * d + r) (2 * d) =
  round_nearest_even (q / 2)
    (loc_of_shr_record
       (Build_shr_record (q / 2) (Z.odd q) (negb (r =? 0)))).
Proof.
  intros Hd Hr Hq0.
  pose proof (Z.div_mod q 2 ltac:(lia)) as Hq.
  pose proof (Z.mod_pos_bound q 2 ltac:(lia)) as Hb.
  assert (Hodd : Z.odd q = negb (q mod 2 =? 0)).
  { rewrite Zmod_odd. destruct (Z.odd q); reflexivity. }
  set (h := q / 2) in *. set (b := q mod 2) in *. clearbody h b.
  replace (q * d + r) with (h * (2 * d) + (b * d + r)) by nia.
  rewrite rne_div_mod by nia.
  rewrite Hodd.
  destruct (Z.eqb_spec b 0) as [->|Hb1]; destruct (Z.eqb_spec r 0) as [->|Hr0];
    cbn [negb loc_of_shr_record round_nearest_even].
  - replace (2 * (0 * d + 0) ?= 2 * d) with Lt; [reflexivity|].
    symmetry; apply Z.compare_lt_iff; lia.
  - replace (2 * (0 * d + r) ?= 2 * d) with Lt; [reflexivity|].
    symmetry; apply Z.compare_lt_iff; lia.
  - replace b with 1 by lia.
    replace (2 * (1 * d + 0) ?= 2 * d) with Eq; [reflexivity|].
    symmetry; apply Z.compare_eq_iff; lia.
  - replace b with 1 by lia.
    replace (2 * (1 * d + r) ?= 2 * d) with Gt; [reflexivity|].
    symmetry; apply Z.compare_gt_iff; lia.
Qed.

Lemma shr_record_of_new_location (q d r : Z) :
  0 <= r < d ->
  exists r0 s0,
    shr_record_of_loc q (new_location d r) = Build_shr_record q r0 s0 /\
    r0 || s0 = negb (r =? 0).
Proof.
  intros Hr. unfold new_location, new_location_even, new_location_odd.
  destruct (Z.even d); destruct (Z.eqb_spec r 0) as [->|Hr0];
    cbn [shr_record_of_loc negb].
  - now exists false, false.
  - destruct (2 * r ?= d); cbn [shr_record_of_loc];
      eexists _, _; split; reflexivity.
  - now exists false, false.
  - destruct (2 * r + 1 ?= d); cbn [shr_record_of_loc];
      eexists _, _; split; reflexivity.
Qed.

(** The rounding step of a division whose quotient [q] has 53 or 54 digits:
    the result is the quotient of [q * d + r] by [d], rounded to 53 digits. *)
Lemma binary_round_aux_div (s : bool) (q d r e : Z) :
  0 < d -> 0 <= r < d -> 2 ^ 52 <= q < 2 ^ 54 -> -1000 <= e <= 800 ->
  binary_round_aux prec emax s q e (new_location d r) =
  if q <? 2 ^ 53 then normal53 s (rne (q * d + r) d) e
  else normal53 s (rne (q * d + r) (2 * d)) (e + 1).
Proof.
  intros Hd Hr Hq He. unfold binary_round_aux.
  destruct (Z.ltb_spec q (2 ^ 53)) as [Hlt|Hge].
  - unfold shr_fexp at 1.
    rewrite (Zdigits2_bounds q 53) by lia.
    rewrite fexp_normal by lia. change (53 - 53) with 0. cbn [shr].
    destruct (loc_of_shr_record_of_loc q (new_location d r)) as [-> ->].
    rewrite round_new_location, <- (rne_div_mod q d r) by lia.
    apply finish_round; [|lia].
    split; [apply rne_ge|apply rne_le]; nia.
  - unfold shr_fexp at 1.
    rewrite (Zdigits2_bounds q 54) by lia.
    rewrite fexp_normal by lia. change (54 - 53) with 1. cbn [shr iter_pos].
    destruct (shr_record_of_new_location q d r Hr) as (r0 & s0 & -> & Hrs).
    rewrite shr_1_pos by lia. rewrite Hrs. cbn [shr_m].
    rewrite <- (rne_div_mod_half q d r) by lia.
    apply finish_round; [|lia].
    split; [apply rne_ge|apply rne_le]; nia.
Qed.

(** The quotient of two doubles with full 53-digit mantissas. *)
Lemma double_div_normal (m1 m2 : positive) (e1 e2 : Z) :
  Zpos (digits2_pos m1) = 53 -> Zpos (digits2_pos m2) = 53 ->
  -60 <= e1 <= 60 -> -60 <= e2 <= 60 ->
  double_div (S754_finite false m1 e1) (S754_finite false m2 e2) =
  if Zpos m1 <? Zpos m2
  then normal53 false (rne (Zpos m1 * 2 ^ 53) (Zpos m2)) (e1 - e2 - 53)
  else normal53 false (rne (Zpos m1 * 2 ^ 53) (2 * Zpos m2)) (e1 - e2 - 53 + 1).
Proof.
  intros Hd1 Hd2 He1 He2.
  pose proof (digits2_spec m1) as Hb1. rewrite Hd1 in Hb1.
  pose proof (digits2_spec m2) as Hb2. rewrite Hd2 in Hb2.
  change (2 ^ (53 - 1)) with (2 ^ 52) in *.
  unfold double_div, SFdiv, SFdiv_core_binary. cbn [Zdigits2 xorb].
  rewrite Hd1, Hd2.
  assert (He : Z.min (fexp prec emax (53 + e1 - (53 + e2))) (e1 - e2)
               = e1 - e2 - 53)
    by (unfold fexp, SpecFloat.emin, prec, emax; lia).
  rewrite He.
  replace (e1 - e2 - (e1 - e2 - 53)) with 53 by lia.
  rewrite Z.shiftl_mul_pow2 by lia.
  set (n := Zpos m1 * 2 ^ 53). set (d := Zpos m2) in *.
  assert (Hn : 2 ^ 52 * 2 ^ 53 <= n < 2 ^ 53 * 2 ^ 53) by (unfold n; lia).
  pose proof (Z.div_mod n d ltac:(lia)) as Hdm.
  pose proof (Z.mod_pos_bound n d ltac:(lia)) as Hmb.
  unfold Z.div, Z.modulo in Hdm, Hmb.
  destruct (Z.div_eucl n d) as [q r].
  assert (Hq : 2 ^ 52 <= q < 2 ^ 54) by nia.
  rewrite binary_round_aux_div by lia.
  replace (q * d + r) with n by lia.
  destruct (Z.ltb_spec q (2 ^ 53)); destruct (Z.ltb_spec (Zpos m1) d);
    try reflexivity; unfold n in *; nia.
Qed.

(** Integers up to [2^53] convert exactly, to a full 53-digit mantissa. *)
Lemma double_of_int_normal (z : Z) :
  0 < z <= 2 ^ 53 ->
  exists m e,
    double_of_int z = S754_finite false m e /\
    Zpos (digits2_pos m) = 53 /\ -52 <= e <= 1 /\
    Zpos m * 2 ^ (e + 52) = z * 2 ^ 52.
Proof.
  intros Hz. destruct (Z.eq_dec z (2 ^ 53)) as [->|Hne].
  - exists (Z.to_pos (2 ^ 52)), 1. repeat split; try reflexivity; lia.
  - destruct z as [|p|p]; try lia.
    unfold double_of_int, binary_normalize, binary_round.
    pose proof (digits2_spec p) as Hp.
    set (d := Zpos (digits2_pos p)) in *.
    assert (Hd : 1 <= d <= 53).
    { split; [unfold d; lia|].
      destruct (Z_le_gt_dec d 53) as [|Hgt]; [assumption|exfalso].
      assert (2 ^ 53 <= 2 ^ (d - 1)) by (apply Z.pow_le_mono_r; lia). lia. }
    assert (Hf : fexp prec emax (d + 0) = d - 53)
      by (unfold fexp, SpecFloat.emin, prec, emax; lia).
    rewrite Hf. unfold shl_align.
    assert (Hpow : 2 ^ (d - 1) * 2 ^ (53 - d) = 2 ^ 52)
      by (rewrite <- Z.pow_add_r by lia; f_equal; lia).
    assert (Hpow' : 2 ^ d * 2 ^ (53 - d) = 2 ^ 53)
      by (rewrite <- Z.pow_add_r by lia; f_equal; lia).
    assert (Hpos : 0 < 2 ^ (53 - d)) by (apply Z.pow_pos_nonneg; lia).
    destruct (d - 53 - 0) as [|k|k] eqn:Hk; try lia.
    + assert (d = 53) by lia.
      exists p, 0. split.
      { apply binary_round_aux_canonical; [fold d|]; lia. }
      repeat split; try lia; fold d; lia.
    + assert (Hkd : Zpos k = 53 - d) by lia.
      pose proof (iter_xO_pow2 p k) as Hm. rewrite Hkd in Hm.
      assert (Hdm : Zpos (digits2_pos (Pos.iter xO p k)) = 53).
      { apply digits2_bounds; [|lia]. rewrite Hm.
        change (2 ^ (53 - 1)) with (2 ^ 52). nia. }
      exists (Pos.iter xO p k), (d - 53). split.
      { apply binary_round_aux_canonical; [assumption|lia]. }
      repeat split; try lia; try assumption.
      rewrite Hm. replace (d - 53 + 52) with (d - 1) by lia. nia.
Qed.

End Binary64.

(* ================================================================== *)
(** * The model of [double] against the machine's binary64 *)
(* ================================================================== *)

(** The kernel's primitive floats are the processor's binary64 numbers, and
    the Standard Library specifies their operations by the [spec_float]
    functions [double] is built on: the processor's conversion and division
    give what [double_of_int] and [double_div] give. The quotients computed
    below, among them the ones the properties turn on, show it on the
    machine itself. *)
Section Hardware.

Lemma hardware_quotient_spec (a b : Z) :
  0 <= a < 2 ^ 63 -> 0 <= b < 2 ^ 63 ->
  hardware_quotient a b = double_div (double_of_int a) (double_of_int b).
Proof.
  intros Ha Hb. unfold hardware_quotient.
  rewrite FloatAxioms.div_spec, !FloatAxioms.of_uint63_spec.
  rewrite !Uint63.of_Z_spec.
  rewrite !Z.mod_small by (change Uint63.wB with (2 ^ 63); lia).
  reflexivity.
Qed.

Lemma hardware_quotient_6_4 :
  hardware_quotient 6 4 = double_div (double_of_int 6) (double_of_int 4).
Proof. vm_compute. reflexivity. Qed.

Lemma hardware_quotient_10_3 :
  hardware_quotient 10 3 = double_div (double_of_int 10) (double_of_int 3).
Proof. vm_compute. reflexivity. Qed.

Lemma hardware_quotient_2p53_3 :
  hardware_quotient (2 ^ 53 - 1) 3 =
  double_div (double_of_int (2 ^ 53 - 1)) (double_of_int 3).
Proof. vm_compute. reflexivity. Qed.

Lemma hardware_quotient_above_2p53 :
  hardware_quotient (2 ^ 53 + 1) 1 =
  double_div (double_of_int (2 ^ 53 + 1)) (double_of_int 1).
Proof. vm_compute. reflexivity. Qed.

Lemma hardware_quotient_large :
  hardware_quotient (2 ^ 62 + 12345) (2 ^ 31 - 1) =
  double_div (double_of_int (2 ^ 62 + 12345)) (double_of_int (2 ^ 31 - 1)).
Proof. vm_compute. reflexivity. Qed.

End Hardware.

(* ================================================================== *)
(** * The exact integer ceiling and the rounded quotient *)
(* ================================================================== *)

Section Ceiling.

Lemma ceil_div_bounds (t p : Z) :
  0 < p -> (ceil_div t p - 1) * p < t <= ceil_div t p * p.
Proof.
  intros Hp. unfold ceil_div. euclid (t + p - 1) p. nia.
Qed.

Lemma ceil_div_unique (t p c : Z) :
  0 < p -> (c - 1) * p < t <= c * p -> ceil_div t p = c.
Proof.
  intros Hp Hc. pose proof (ceil_div_bounds t p Hp). nia.
Qed.

Lemma neg_div_unique (m t c : Z) :
  0 < t -> (c - 1) * t < m <= c * t -> - ((- m) / t) = c.
Proof.
  intros Ht Hc. euclid (- m) t. nia.
Qed.

(** The heart of the matter: when [n / d] is the mantissa of the quotient
    [t / p] at scale [1 / s] (that is, [t / p = (n / d) / s]), with at least
    53 digits before the point and [t <= 2^53], rounding [n / d] to an integer
    does not move the ceiling of [t / p]. *)
Lemma ceil_of_rounded_quotient (t p n d s : Z) :
  0 < t <= 2 ^ 53 -> 0 < p -> 0 < d -> 0 < s ->
  t * d * s = n * p -> 2 ^ 52 * d <= n ->
  - ((- rne n d) / s) = ceil_div t p.
Proof.
  intros Ht Hp Hd Hs Heq Hn.
  pose proof (ceil_div_bounds t p Hp) as Hc.
  set (c := ceil_div t p) in *. clearbody c.
  assert (Hds : 0 < d * s) by nia.
  apply neg_div_unique; [assumption|]. split.
  - destruct (Z.eq_dec n (2 ^ 52 * d)) as [->|Hne].
    + rewrite rne_exact by lia.
      assert (t * s = 2 ^ 52 * p) by nia.
      assert ((c - 1) * p * s < t * s) by (apply Z.mul_lt_mono_pos_r; lia).
      nia.
    + apply rne_gt; [assumption|].
      assert (H1 : 2 ^ 52 * d * p < t * d * s) by nia.
      assert (H2 : 2 ^ 52 * p < t * s) by nia.
      assert (H3 : t * s <= 2 ^ 53 * s) by nia.
      assert (H4 : p < 2 * s) by lia.
      assert (H5 : ((c - 1) * p + 1) * (d * s) <= t * (d * s))
        by (apply Z.mul_le_mono_nonneg_r; lia).
      set (x := n - (c - 1) * s * d) in *.
      assert (H6 : d * s <= x * p) by (unfold x; nia).
      assert (H7 : d * p < 2 * (x * p)) by nia.
      nia.
  - apply rne_le; [assumption|].
    assert (H1 : t * (d * s) <= c * p * (d * s))
      by (apply Z.mul_le_mono_nonneg_r; lia).
    assert (H2 : n * p <= c * s * d * p) by nia.
    nia.
Qed.

Lemma int64_range (z : Z) :
  0 <= z < 2 ^ 60 -> (INT64_MIN <=? z) && (z <=? INT64_MAX) = true.
Proof.
  intros Hz. unfold INT64_MIN, INT64_MAX.
  apply andb_true_intro; split; apply Z.leb_le; lia.
Qed.

(** Converting an integer up to [2^53] to [double] and back is the identity. *)
Lemma int64_of_double_of_int (c : Z) :
  0 <= c <= 2 ^ 53 -> int64_of_double (double_of_int c) = c.
Proof.
  intros Hc. destruct (Z.eq_dec c 0) as [->|Hne]; [reflexivity|].
  destruct (double_of_int_normal c ltac:(lia)) as (m & e & -> & Hd & He & Hv).
  assert (Ht : dyadic_trunc (Zpos m) e = c).
  { unfold dyadic_trunc. destruct (Z.leb_spec 0 e) as [Hpos|Hneg].
    - assert (e = 0 \/ e = 1) as [-> | ->] by lia.
      + change (2 ^ (0 + 52)) with (2 ^ 52) in Hv. lia.
      + change (2 ^ (1 + 52)) with (2 * 2 ^ 52) in Hv. lia.
    - assert (Hsplit : 2 ^ 52 = 2 ^ (e + 52) * 2 ^ (- e))
        by (rewrite <- Z.pow_add_r by lia; f_equal; lia).
      assert (0 < 2 ^ (e + 52)) by (apply Z.pow_pos_nonneg; lia).
      assert (0 < 2 ^ (- e)) by (apply Z.pow_pos_nonneg; lia).
      assert (Hm : Zpos m = c * 2 ^ (- e)) by nia.
      rewrite Hm. apply Z.quot_mul. lia. }
  cbn [int64_of_double cond_Zopp]. rewrite Ht.
  rewrite int64_range by lia. reflexivity.
Qed.

Lemma dyadic_ceil_nonpos (m e : Z) :
  e <= 0 -> dyadic_ceil m e = - ((- m) / 2 ^ (- e)).
Proof.
  intros He. unfold dyadic_ceil. destruct (Z.leb_spec 0 e); [|reflexivity].
  replace e with 0 by lia. change (2 ^ (- 0)) with 1. change (2 ^ 0) with 1.
  rewrite Z.div_1_r. lia.
Qed.

Lemma dyadic_ceil_carry (m e : Z) :
  dyadic_ceil (2 * m) e = dyadic_ceil m (e + 1).
Proof.
  unfold dyadic_ceil.
  destruct (Z.leb_spec 0 e); destruct (Z.leb_spec 0 (e + 1)); try lia.
  - rewrite Z.pow_add_r by lia. lia.
  - replace e with (-1) by lia.
    change (2 ^ (- (-1))) with 2. change (2 ^ (-1 + 1)) with 1.
    replace (- (2 * m)) with ((- m) * 2) by lia. rewrite Z.div_mul by lia. lia.
  - replace (- e) with (1 + - (e + 1)) by lia.
    rewrite Z.pow_add_r by lia. change (2 ^ 1) with 2.
    replace (- (2 * m)) with (2 * - m) by lia.
    rewrite Z.div_mul_cancel_l; [reflexivity| |lia].
    apply Z.pow_nonzero; lia.
Qed.

(** [(int64_t)ceil(x)] of a normal double below [2^55] is the integer ceiling
    of the number it denotes. *)
Lemma cast_ceil_finite (m : positive) (e : Z) :
  Zpos (digits2_pos m) = 53 -> -1000 <= e <= 2 ->
  int64_of_double (ceil (S754_finite false m e)) = dyadic_ceil (Zpos m) e.
Proof.
  intros Hd He. pose proof (digits2_spec m) as Hb. rewrite Hd in Hb.
  change (2 ^ (53 - 1)) with (2 ^ 52) in Hb.
  unfold ceil, dyadic_ceil. destruct (Z.leb_spec 0 e) as [Hpos|Hneg].
  - cbn [int64_of_double cond_Zopp]. unfold dyadic_trunc.
    replace (0 <=? e) with true by (symmetry; apply Z.leb_le; lia).
    assert (0 < 2 ^ e <= 2 ^ 2)
      by (split; [apply Z.pow_pos_nonneg|apply Z.pow_le_mono_r]; lia).
    rewrite int64_range by nia. reflexivity.
  - cbn [cond_Zopp]. fold (double_of_int (- (- Zpos m / 2 ^ (- e)))).
    apply int64_of_double_of_int.
    assert (2 <= 2 ^ (- e))
      by (change 2 with (2 ^ 1) at 1; apply Z.pow_le_mono_r; lia).
    euclid (- Zpos m) (2 ^ (- e)). nia.
Qed.

Lemma cast_ceil_normal53 (m e : Z) :
  2 ^ 52 <= m <= 2 ^ 53 -> -1000 <= e <= 1 ->
  int64_of_double (ceil (normal53 false m e)) = dyadic_ceil m e.
Proof.
  intros Hm He. unfold normal53.
  destruct (Z.eqb_spec m (2 ^ 53)) as [->|Hne].
  - rewrite cast_ceil_finite; [|reflexivity|lia].
    change (2 ^ 53) with (2 * 2 ^ 52). rewrite dyadic_ceil_carry. reflexivity.
  - destruct m as [|p|p]; try lia. cbn [Z.to_pos].
    apply cast_ceil_finite; [|lia].
    apply digits2_bounds; [change (2 ^ (53 - 1)) with (2 ^ 52)|]; lia.
Qed.

(** [div_chunk] is the exact integer ceiling as long as [total] converts to
    [double] without rounding. *)
Lemma div_chunk_exact (total num_pes : Z) :
  0 <= total <= 2 ^ 53 -> 1 <= num_pes < 2 ^ 31 ->
  div_chunk total num_pes = ceil_div total num_pes.
Proof.
  intros Ht Hp. unfold div_chunk.
  destruct (double_of_int_normal num_pes ltac:(lia))
    as (m2 & e2 & -> & Hd2 & He2 & Hv2).
  destruct (Z.eq_dec total 0) as [->|Hne].
  { cbn. unfold ceil_div. rewrite Z.div_small by lia. reflexivity. }
  destruct (double_of_int_normal total ltac:(lia))
    as (m1 & e1 & -> & Hd1 & He1 & Hv1).
  pose proof (digits2_spec m1) as Hb1. rewrite Hd1 in Hb1.
  pose proof (digits2_spec m2) as Hb2. rewrite Hd2 in Hb2.
  change (2 ^ (53 - 1)) with (2 ^ 52) in *.
  rewrite double_div_normal by lia.
  set (a := 2 ^ (e1 + 52)) in *. set (b := 2 ^ (e2 + 52)) in *.
  assert (Ha : 0 < a) by (apply Z.pow_pos_nonneg; lia).
  assert (Hb : 0 < b) by (apply Z.pow_pos_nonneg; lia).
  assert (Hcross : forall d s k,
             0 < d -> 0 < s -> d * s * a = Zpos m2 * b * k ->
             k = 2 ^ 53 -> total * d * s = Zpos m1 * k * num_pes).
  { intros d s k Hd Hs Hds ->.
    apply (Z.mul_reg_r _ _ (2 ^ 52 * a)); [lia|].
    transitivity (total * 2 ^ 52 * (d * s * a)); [ring|].
    rewrite Hds, <- Hv1.
    transitivity (Zpos m1 * a * (Zpos m2 * b) * 2 ^ 53); [ring|].
    rewrite Hv2. ring. }
  destruct (Z.ltb_spec (Zpos m1) (Zpos m2)) as [Hlt|Hge].
  - (* the quotient has 53 digits *)
    assert (He : e1 - e2 - 53 <= 0) by lia.
    rewrite cast_ceil_normal53;
      [|split; [apply rne_ge|apply rne_le]; nia|lia].
    rewrite dyadic_ceil_nonpos by lia.
    set (s := 2 ^ (- (e1 - e2 - 53))).
    assert (Hs : 0 < s) by (apply Z.pow_pos_nonneg; lia).
    apply ceil_of_rounded_quotient; try lia.
    apply Hcross; try lia.
    unfold s, a, b. rewrite <- !Z.mul_assoc, <- !Z.pow_add_r by lia.
    do 2 f_equal. lia.
  - (* the quotient has 54 digits *)
    destruct (Z.eq_dec (e1 - e2 - 53 + 1) 1) as [Hone|Hnone].
    + assert (e1 = 1) by lia. assert (e2 = -52) by lia. subst e1 e2.
      unfold a, b in *.
      change (2 ^ (1 + 52)) with (2 * 2 ^ 52) in *.
      change (2 ^ (-52 + 52)) with 1 in *.
      assert (total = 2 ^ 53) by lia. assert (num_pes = 1) by lia.
      assert (Hm1 : Zpos m1 = 2 ^ 52) by lia.
      assert (Hm2 : Zpos m2 = 2 ^ 52) by lia.
      subst total num_pes. rewrite Hm1, Hm2. reflexivity.
    + rewrite cast_ceil_normal53;
        [|split; [apply rne_ge|apply rne_le]; nia|lia].
      rewrite dyadic_ceil_nonpos by lia.
      set (s := 2 ^ (- (e1 - e2 - 53 + 1))).
      assert (Hs : 0 < s) by (apply Z.pow_pos_nonneg; lia).
      apply ceil_of_rounded_quotient; try lia.
      apply Hcross; try lia.
      replace (2 * Zpos m2 * s * a) with (Zpos m2 * (2 ^ 1 * (s * a)))
        by (change (2 ^ 1) with 2; ring).
      unfold s, a, b. rewrite <- !Z.mul_assoc, <- !Z.pow_add_r by lia.
      do 2 f_equal. lia.
Qed.

End Ceiling.

(* ================================================================== *)
(** * The helpers on lengths that convert exactly *)
(* ================================================================== *)

Section Geometry.

Lemma wrap64_small (z : Z) : - 2 ^ 63 <= z < 2 ^ 63 -> wrap64 z = z.
Proof.
  intros Hz. unfold wrap64, wrap.
  change (2 ^ (64 - 1)) with (2 ^ 63). rewrite Z.mod_small; lia.
Qed.

Lemma wrap32_small (z : Z) : - 2 ^ 31 <= z < 2 ^ 31 -> wrap32 z = z.
Proof.
  intros Hz. unfold wrap32, wrap.
  change (2 ^ (32 - 1)) with (2 ^ 31). rewrite Z.mod_small; lia.
Qed.

(** The hypotheses under which the three helpers are exact: a length that
    [double] holds without rounding, a participant count that is a positive
    [int], and a rank of that communicator. *)
Variables total num_pes : Z.
Hypothesis total_range : 0 <= total <= 2 ^ 53.
Hypothesis num_pes_range : 1 <= num_pes < 2 ^ 31.

Lemma chunk_bounds :
  0 <= ceil_div total num_pes /\
  total <= num_pes * ceil_div total num_pes < total + num_pes.
Proof.
  pose proof (ceil_div_bounds total num_pes ltac:(lia)) as H. nia.
Qed.

Lemma get_start_min (r : Z) :
  0 <= r < num_pes ->
  get_start total num_pes r = Z.min total (r * ceil_div total num_pes).
Proof.
  intros Hr. unfold get_start.
  rewrite div_chunk_exact by assumption.
  pose proof chunk_bounds. rewrite wrap64_small; [reflexivity|nia].
Qed.

Lemma get_end_min (r : Z) :
  0 <= r < num_pes ->
  get_end total num_pes r = Z.min total ((r + 1) * ceil_div total num_pes).
Proof.
  intros Hr. unfold get_end.
  rewrite div_chunk_exact by assumption.
  pose proof chunk_bounds.
  rewrite wrap32_small by lia. rewrite wrap64_small; [reflexivity|nia].
Qed.

Lemma get_node_portion_diff (r : Z) :
  0 <= r < num_pes ->
  get_node_portion total num_pes r =
  get_end total num_pes r - get_start total num_pes r.
Proof.
  intros Hr. unfold get_node_portion.
  rewrite get_start_min, get_end_min by assumption.
  pose proof chunk_bounds. apply wrap64_small. nia.
Qed.

End Geometry.

(* ================================================================== *)
(** * The local join *)
(* ================================================================== *)

Section LocalJoin.

Lemma rows_of_chunk_of_rows (rs : list row) : rows_of (chunk_of_rows rs) = rs.
Proof.
  unfold rows_of, chunk_of_rows.
  induction rs as [|[[k a] b] rs IH]; cbn; [reflexivity|]. now f_equal.
Qed.

Lemma chunk_of_rows_app (rs rs' : list row) :
  chunk_of_rows (rs ++ rs') =
  (let '(ks, a, b) := chunk_of_rows rs in
   let '(ks', a', b') := chunk_of_rows rs' in
   (ks ++ ks', a ++ a', b ++ b')).
Proof. unfold chunk_of_rows. now rewrite !map_app. Qed.

(** *** [std::find] *)

Lemma std_find_le (v : list Z) (k : Z) : (std_find v k <= length v)%nat.
Proof.
  induction v as [|x v IH]; cbn; [lia|].
  destruct (x =? k); lia.
Qed.

Lemma std_find_found (v : list Z) (k : Z) :
  (std_find v k < length v)%nat <-> In k v.
Proof.
  induction v as [|x v IH]; cbn.
  - split; [lia|tauto].
  - destruct (Z.eqb_spec x k) as [->|Hne].
    + split; [now left|lia].
    + rewrite <- IH. split; [intros; right; lia|intros [?|?]; [congruence|lia]].
Qed.

Lemma std_find_first (v : list Z) (k : Z) :
  (std_find v k < length v)%nat -> first_match v k (std_find v k).
Proof.
  unfold first_match. induction v as [|x v IH]; cbn; [lia|].
  destruct (Z.eqb_spec x k) as [->|Hne]; intros Hlt.
  - split; [reflexivity|lia].
  - destruct IH as [Hnth Hmin]; [lia|]. split; [exact Hnth|].
    intros [|j'] Hj'; cbn; [congruence|]. apply Hmin. lia.
Qed.

Lemma first_match_unique (v : list Z) (k : Z) (i j : nat) :
  first_match v k i -> first_match v k j -> i = j.
Proof.
  intros [Hi Hi'] [Hj Hj'].
  destruct (Nat.lt_trichotomy i j) as [H|[H|H]]; [|assumption|].
  - now apply Hj' in H.
  - now apply Hi' in H.
Qed.

(** *** The [int] index *)

Lemma index_of_small (p : nat) :
  Z.of_nat p < 2 ^ 31 -> index_of p = Z.of_nat p.
Proof. intros Hp. unfold index_of. apply wrap32_small. lia. Qed.

Lemma index_of_le (p : nat) : index_of p <= Z.of_nat p.
Proof.
  unfold index_of, wrap32, wrap.
  change (2 ^ (32 - 1)) with (2 ^ 31).
  pose proof (Z.mod_le (Z.of_nat p + 2 ^ 31) (2 ^ 32) ltac:(lia) ltac:(lia)).
  lia.
Qed.

Lemma at_int_of_nat {A : Type} (v : list A) (p : nat) :
  at_int v (Z.of_nat p) = nth_error v p.
Proof.
  unfold at_int, at_.
  replace (Z.of_nat p <? 0) with false by (symmetry; apply Z.ltb_ge; lia).
  now rewrite Nat2Z.id.
Qed.

Lemma at_int_none {A : Type} (v : list A) (i : Z) :
  at_int v i = None <-> i < 0 \/ Z.of_nat (length v) <= i.
Proof.
  unfold at_int, at_. destruct (Z.ltb_spec i 0) as [Hneg|Hpos].
  - split; [now left|reflexivity].
  - rewrite nth_error_None. lia.
Qed.

Lemma at_int_some {A : Type} (v : list A) (i : Z) (x : A) :
  at_int v i = Some x -> 0 <= i /\ nth_error v (Z.to_nat i) = Some x.
Proof.
  unfold at_int, at_. destruct (Z.ltb_spec i 0) as [Hneg|Hpos];
    [discriminate|]. now split.
Qed.

(** Below [2^31] elements the [int] index is the position of the match. *)
Lemma emit_rows_first_match keys2 data0 data1 (k : Z) :
  Z.of_nat (length keys2) <= 2 ^ 31 ->
  emit_rows keys2 data0 data1 k = first_match_rows keys2 data0 data1 k.
Proof.
  intros Hlen. unfold emit_rows, first_match_rows.
  destruct (Nat.ltb_spec (std_find keys2 k) (length keys2)) as [Hlt|Hge];
    [|reflexivity].
  rewrite index_of_small by lia. now rewrite !at_int_of_nat.
Qed.

(** *** One iteration *)

Lemma join_step_emit keys2 data0 data1 (racc : list row) (k : Z) :
  join_step keys2 data0 data1 (chunk_of_rows racc) k =
  (rs <- emit_rows keys2 data0 data1 k ;; ret (chunk_of_rows (racc ++ rs))).
Proof.
  unfold join_step, emit_rows, chunk_of_rows at 1.
  destruct (Nat.ltb_spec (std_find keys2 k) (length keys2)) as [Hlt|Hge].
  - destruct (std_find_first keys2 k Hlt) as [Hnth _].
    unfold at_ at 1. rewrite Hnth. cbn [bind].
    destruct (at_int data0 (index_of (std_find keys2 k))) as [a|];
      [|reflexivity].
    destruct (at_int data1 (index_of (std_find keys2 k))) as [b|];
      [|reflexivity].
    cbn [bind ret]. now rewrite chunk_of_rows_app.
  - cbn [bind ret]. now rewrite app_nil_r.
Qed.

Lemma emit_rows_none keys2 data0 data1 (k : Z) :
  emit_rows keys2 data0 data1 k = None <->
  reads_out_of_bounds keys2 data0 data1 k.
Proof.
  unfold emit_rows, reads_out_of_bounds.
  destruct (Nat.ltb_spec (std_find keys2 k) (length keys2)) as [Hlt|Hge].
  - destruct (at_int data0 (index_of (std_find keys2 k))) as [a|] eqn:Ha.
    + destruct (at_int data1 (index_of (std_find keys2 k))) as [b|] eqn:Hb.
      * cbn [bind ret]. split; [discriminate|]. intros [_ H].
        assert (H0 : at_int data0 (index_of (std_find keys2 k)) <> None)
          by congruence.
        assert (H1 : at_int data1 (index_of (std_find keys2 k)) <> None)
          by congruence.
        rewrite at_int_none in H0. rewrite at_int_none in H1. lia.
      * cbn [bind]. split; [intros _|reflexivity].
        apply at_int_none in Hb. split; [assumption|lia].
    + cbn [bind]. split; [intros _|reflexivity].
      apply at_int_none in Ha. split; [assumption|lia].
  - cbn [ret]. split; [discriminate|lia].
Qed.

Lemma emit_rows_length keys2 data0 data1 (k : Z) (rs : list row) :
  emit_rows keys2 data0 data1 k = Some rs -> (length rs <= 1)%nat.
Proof.
  unfold emit_rows.
  destruct (std_find keys2 k <? length keys2)%nat.
  - destruct (at_int data0 _) as [a|]; [|discriminate].
    destruct (at_int data1 _) as [b|]; [|discriminate].
    intros [= <-]. cbn. lia.
  - intros [= <-]. cbn. lia.
Qed.

(** What an emitted row is made of: its key has a match in [keys2], and its
    payloads stand in [data0] and [data1] at the [int] index of the first
    match. *)
Lemma emit_rows_origin keys2 data0 data1 (k : Z) (rs : list row) :
  emit_rows keys2 data0 data1 k = Some rs ->
  forall k' a b, In (k', a, b) rs ->
    k' = k /\ first_match keys2 k (std_find keys2 k) /\
    0 <= index_of (std_find keys2 k) /\
    nth_error data0 (Z.to_nat (index_of (std_find keys2 k))) = Some a /\
    nth_error data1 (Z.to_nat (index_of (std_find keys2 k))) = Some b.
Proof.
  unfold emit_rows.
  destruct (Nat.ltb_spec (std_find keys2 k) (length keys2)) as [Hlt|Hge].
  - destruct (at_int data0 _) as [a0|] eqn:Ha; [|discriminate].
    destruct (at_int data1 _) as [b0|] eqn:Hb; [|discriminate].
    intros [= <-] k' a b [[= <- <- <-]|[]].
    apply at_int_some in Ha as [Hpos Ha]. apply at_int_some in Hb as [_ Hb].
    split; [reflexivity|]. split; [now apply std_find_first|]. now split.
  - intros [= <-] k' a b [].
Qed.

(** Below [2^31] probe rows an emitted row is the probe row at the first
    match. *)
Lemma emit_rows_emits keys2 data0 data1 (k : Z) (rs : list row) :
  Z.of_nat (length keys2) <= 2 ^ 31 ->
  emit_rows keys2 data0 data1 k = Some rs -> emits keys2 data0 data1 k rs.
Proof.
  intros Hlen. rewrite emit_rows_first_match by assumption.
  unfold first_match_rows, at_.
  destruct (Nat.ltb_spec (std_find keys2 k) (length keys2)) as [Hlt|Hge].
  - destruct (nth_error data0 (std_find keys2 k)) as [a|] eqn:Ha;
      [|discriminate].
    destruct (nth_error data1 (std_find keys2 k)) as [b|] eqn:Hb;
      [|discriminate].
    intros [= <-]. eapply emits_first; [|eassumption..].
    now apply std_find_first.
  - intros [= <-]. apply emits_nothing. rewrite <- std_find_found. lia.
Qed.

Lemma reads_out_of_bounds_bounded keys2 data0 data1 (k : Z) :
  Z.of_nat (length keys2) <= 2 ^ 31 ->
  reads_out_of_bounds keys2 data0 data1 k <->
  first_match_past_end keys2 data0 data1 k.
Proof.
  intros Hlen. unfold reads_out_of_bounds, first_match_past_end.
  destruct (Nat.ltb_spec (std_find keys2 k) (length keys2)) as [Hlt|Hge];
    [|lia].
  rewrite index_of_small by lia. lia.
Qed.

Lemma no_out_of_bounds_when_long_enough keys2 data0 data1 (k : Z) :
  Z.of_nat (length keys2) <= 2 ^ 31 ->
  (length keys2 <= length data0)%nat -> (length keys2 <= length data1)%nat ->
  ~ reads_out_of_bounds keys2 data0 data1 k.
Proof.
  intros Hlen H0 H1. rewrite reads_out_of_bounds_bounded by assumption.
  unfold first_match_past_end. lia.
Qed.

(** *** The loop *)

Lemma join_loop_join_rows keys2 data0 data1 (keys1 : list Z) :
  forall racc : list row,
    join_loop keys2 data0 data1 keys1 (chunk_of_rows racc) =
    (rs <- join_rows keys2 data0 data1 keys1 ;;
     ret (chunk_of_rows (racc ++ rs))).
Proof.
  induction keys1 as [|k keys1 IH]; intros racc; cbn [join_loop join_rows].
  - cbn. now rewrite app_nil_r.
  - rewrite join_step_emit.
    destruct (emit_rows keys2 data0 data1 k) as [rs|]; [|reflexivity].
    cbn [bind ret]. rewrite IH.
    destruct (join_rows keys2 data0 data1 keys1) as [rs'|]; [|reflexivity].
    cbn. now rewrite app_assoc.
Qed.

Lemma local_join_rows keys2 data0 data1 (keys1 : list Z) :
  local_join_impl keys1 keys2 data0 data1 =
  (rs <- join_rows keys2 data0 data1 keys1 ;; ret (chunk_of_rows rs)).
Proof. exact (join_loop_join_rows keys2 data0 data1 keys1 []). Qed.

Lemma local_join_some keys2 data0 data1 (keys1 : list Z) (out : chunk) :
  local_join_impl keys1 keys2 data0 data1 = Some out <->
  exists rs, join_rows keys2 data0 data1 keys1 = Some rs /\
             out = chunk_of_rows rs.
Proof.
  rewrite local_join_rows.
  destruct (join_rows keys2 data0 data1 keys1) as [rs|]; cbn; split.
  - intros [= <-]. now exists rs.
  - intros (rs' & [= <-] & ->). reflexivity.
  - discriminate.
  - intros (rs' & H & _). discriminate.
Qed.

Lemma join_rows_none keys2 data0 data1 (keys1 : list Z) :
  join_rows keys2 data0 data1 keys1 = None <->
  exists k, In k keys1 /\ reads_out_of_bounds keys2 data0 data1 k.
Proof.
  induction keys1 as [|k keys1 IH]; cbn [join_rows].
  - split; [discriminate|intros (k & [] & _)].
  - destruct (emit_rows keys2 data0 data1 k) as [rs|] eqn:Hk; cbn [bind].
    + assert (Hnone : (rs' <- join_rows keys2 data0 data1 keys1 ;;
                       ret (rs ++ rs')) = None <->
                      join_rows keys2 data0 data1 keys1 = None).
      { destruct (join_rows keys2 data0 data1 keys1); cbn [bind ret];
          split; intros H; discriminate H || reflexivity. }
      rewrite Hnone, IH. split.
      * intros (k' & Hin & Hk'). exists k'. split; [now right|assumption].
      * intros (k' & [<-|Hin] & Hk').
        -- apply emit_rows_none in Hk'. congruence.
        -- exists k'. now split.
    + split; [intros _|reflexivity].
      exists k. split; [now left|]. now apply emit_rows_none.
Qed.

Lemma local_join_none keys2 data0 data1 (keys1 : list Z) :
  local_join_impl keys1 keys2 data0 data1 = None <->
  exists k, In k keys1 /\ reads_out_of_bounds keys2 data0 data1 k.
Proof.
  rewrite local_join_rows, <- join_rows_none.
  destruct (join_rows keys2 data0 data1 keys1); cbn [bind ret];
    split; intros H; discriminate H || reflexivity.
Qed.

Lemma local_join_returns keys2 data0 data1 (keys1 : list Z) :
  Z.of_nat (length keys2) <= 2 ^ 31 ->
  (length keys2 <= length data0)%nat -> (length keys2 <= length data1)%nat ->
  exists out, local_join_impl keys1 keys2 data0 data1 = Some out.
Proof.
  intros Hlen H0 H1.
  destruct (local_join_impl keys1 keys2 data0 data1) as [out|] eqn:Hj;
    [now exists out|].
  apply local_join_none in Hj as (k & _ & Hk).
  now apply no_out_of_bounds_when_long_enough in Hk.
Qed.

Lemma join_rows_length keys2 data0 data1 (keys1 : list Z) :
  forall rs, join_rows keys2 data0 data1 keys1 = Some rs ->
    (length rs <= length keys1)%nat.
Proof.
  induction keys1 as [|k keys1 IH]; intros rs; cbn [join_rows].
  - intros [= <-]. cbn. lia.
  - destruct (emit_rows keys2 data0 data1 k) as [rk|] eqn:Hk; [|discriminate].
    destruct (join_rows keys2 data0 data1 keys1) as [rr|]; [|discriminate].
    cbn [bind ret]. intros [= <-]. rewrite length_app. cbn [length].
    apply emit_rows_length in Hk. specialize (IH rr eq_refl). lia.
Qed.

Lemma join_rows_origin keys2 data0 data1 (keys1 : list Z) :
  forall rs, join_rows keys2 data0 data1 keys1 = Some rs ->
  forall k a b, In (k, a, b) rs ->
    In k keys1 /\ first_match keys2 k (std_find keys2 k) /\
    0 <= index_of (std_find keys2 k) /\
    nth_error data0 (Z.to_nat (index_of (std_find keys2 k))) = Some a /\
    nth_error data1 (Z.to_nat (index_of (std_find keys2 k))) = Some b.
Proof.
  induction keys1 as [|k0 keys1 IH]; intros rs; cbn [join_rows].
  - intros [= <-] k a b [].
  - destruct (emit_rows keys2 data0 data1 k0) as [rk|] eqn:Hk; [|discriminate].
    destruct (join_rows keys2 data0 data1 keys1) as [rr|]; [|discriminate].
    cbn [bind ret]. intros [= <-] k a b Hin.
    apply in_app_or in Hin as [Hin|Hin].
    + destruct (emit_rows_origin _ _ _ _ _ Hk _ _ _ Hin) as (-> & H).
      split; [now left|exact H].
    + destruct (IH rr eq_refl _ _ _ Hin) as (Hin' & H).
      split; [now right|exact H].
Qed.

(** Below [2^31] probe rows the loop appends one group of rows per build
    key, each empty or the probe row at the first match. *)
Lemma join_rows_emits keys2 data0 data1 (keys1 : list Z) :
  Z.of_nat (length keys2) <= 2 ^ 31 ->
  forall rs, join_rows keys2 data0 data1 keys1 = Some rs ->
    exists rss,
      Forall2 (emits keys2 data0 data1) keys1 rss /\
      Forall (fun rs => length rs <= 1)%nat rss /\
      rs = concat rss.
Proof.
  intros Hlen.
  induction keys1 as [|k keys1 IH]; intros rs; cbn [join_rows].
  - intros [= <-]. exists []. repeat split; constructor.
  - destruct (emit_rows keys2 data0 data1 k) as [rk|] eqn:Hk; [|discriminate].
    destruct (join_rows keys2 data0 data1 keys1) as [rr|]; [|discriminate].
    cbn [bind ret]. intros [= <-].
    destruct (IH rr eq_refl) as (rss & Hrss & Hone & ->).
    exists (rk :: rss). split; [|split].
    + constructor; [now apply emit_rows_emits|assumption].
    + constructor; [now apply emit_rows_length in Hk|assumption].
    + reflexivity.
Qed.

Lemma chunk_of_rows_lengths (rs : list row) (ks : list Z) (a : list double)
    (b : list Z) :
  chunk_of_rows rs = (ks, a, b) ->
  length ks = length rs /\ length a = length rs /\ length b = length rs.
Proof. intros [= <- <- <-]. now rewrite !length_map. Qed.

Lemma join_loop_no_probe data0 data1 (keys1 : list Z) (acc : chunk) :
  join_loop [] data0 data1 keys1 acc = Some acc.
Proof.
  induction keys1 as [|k keys1 IH]; [reflexivity|].
  cbn [join_loop]. destruct acc as [[ks a] b]. cbn. exact IH.
Qed.

(** *** A first match beyond the range of [int] *)

Lemma std_find_far (n : nat) : std_find (far_keys n) 1 = n.
Proof.
  unfold far_keys. induction n as [|n IH]; [reflexivity|].
  cbn [repeat app std_find]. change (0 =? 1) with false. cbv iota.
  now rewrite IH.
Qed.

Lemma far_lengths (n : nat) :
  length (far_keys n) = S n /\ length (far_data0 n) = S n /\
  length (far_data1 n) = S n.
Proof.
  unfold far_keys, far_data0, far_data1.
  rewrite !length_app, !repeat_length. cbn [length]. lia.
Qed.

Lemma nth_error_repeat_app {A : Type} (x : A) (n i : nat) (l : list A) :
  (i < n)%nat -> nth_error (repeat x n ++ l) i = Some x.
Proof.
  intros Hi. rewrite nth_error_app1 by now rewrite repeat_length.
  now apply nth_error_repeat.
Qed.

Lemma nth_error_repeat_last {A : Type} (x y : A) (n : nat) :
  nth_error (repeat x n ++ [y]) n = Some y.
Proof.
  rewrite nth_error_app2 by (rewrite repeat_length; lia).
  rewrite repeat_length, Nat.sub_diag. reflexivity.
Qed.

(** The only row with key 1 stands at position [n]; when the [int] index of
    [n] is some [i < n], the join returns the payloads of row [i]. *)
Lemma far_join_wrapped (n i : nat) :
  index_of n = Z.of_nat i -> (i < n)%nat ->
  local_join_impl [1] (far_keys n) (far_data0 n) (far_data1 n) =
  Some ([1], [double_of_int 0], [0]).
Proof.
  intros Hidx Hi. rewrite local_join_rows. cbn [join_rows].
  unfold emit_rows. rewrite std_find_far.
  destruct (far_lengths n) as (-> & _ & _).
  replace (n <? S n)%nat with true by (symmetry; apply Nat.ltb_lt; lia).
  rewrite Hidx, !at_int_of_nat. unfold far_data0, far_data1.
  rewrite !nth_error_repeat_app by assumption. reflexivity.
Qed.

(** When the [int] index of [n] is negative the join reads out of bounds,
    although the three probe columns have the same length. *)
Lemma far_join_negative (n : nat) :
  index_of n < 0 ->
  local_join_impl [1] (far_keys n) (far_data0 n) (far_data1 n) = None.
Proof.
  intros Hidx. apply local_join_none. exists 1. split; [now left|].
  unfold reads_out_of_bounds. rewrite std_find_far.
  destruct (far_lengths n) as (-> & _ & _). split; [lia|now left].
Qed.

Lemma far_first_match (n : nat) : first_match (far_keys n) 1 n.
Proof.
  pose proof (std_find_first (far_keys n) 1) as H.
  rewrite std_find_far in H. apply H.
  destruct (far_lengths n) as (-> & _ & _). lia.
Qed.

End LocalJoin.

(* ================================================================== *)
(** * The distributed equi-join of the specification, against the code *)
(* ================================================================== *)

(** C1 at two inputs. A key that occurs once in the build column and twice in
    the probe column gets one output row, not two; a key whose build and probe
    occurrences lie on different ranks gets none. *)
Theorem join_misses_matches :
  (occurrences 1 (map in_keys1 duplicate_probe_inputs) = 1%nat /\
   occurrences 1 (map in_keys2 duplicate_probe_inputs) = 2%nat /\
   rows_with_key 1 (global_rows (spmd_run duplicate_probe_inputs)) = 1%nat /\
   spmd_run duplicate_probe_inputs = [Some ([1], [double_of_int 10], [100])])
  /\
  (occurrences 1 (map in_keys1 separated_inputs) = 1%nat /\
   occurrences 1 (map in_keys2 separated_inputs) = 1%nat /\
   rows_with_key 1 (global_rows (spmd_run separated_inputs)) = 0%nat /\
   spmd_run separated_inputs = [Some empty_chunk; Some empty_chunk]).
Proof. repeat split. Qed.

(** C2 on the worked example. The rows all ranks emit together are six on
    one rank, four on two ranks and three on four ranks. *)
Theorem example_output_depends_on_participants :
  global_rows (example_run 1) =
    [example_row 0 2 1; example_row 1 1 4; example_row 1 1 4;
     example_row 2 4 3; example_row 1 1 4; example_row 0 2 1] /\
  global_rows (example_run 2) =
    [example_row 0 2 1; example_row 1 1 4; example_row 1 1 4;
     example_row 2 4 3] /\
  global_rows (example_run 4) =
    [example_row 0 2 1; example_row 1 1 4; example_row 2 4 3].
Proof. repeat split; vm_compute; reflexivity. Qed.

(** C3 on one and on two ranks. On one rank the output holds two copies of
    (0, 2.0, 1), three of (1, 1.0, 4) and one of (2, 4.0, 3), six rows in all;
    on two ranks it holds one, two and one copies, four rows in all. *)
Theorem example_output_incomplete_on_two_ranks :
  (copies (example_row 0 2 1) (global_rows (example_run 1)) = 2%nat /\
   copies (example_row 1 1 4) (global_rows (example_run 1)) = 3%nat /\
   copies (example_row 2 4 3) (global_rows (example_run 1)) = 1%nat /\
   length (global_rows (example_run 1)) = 6%nat) /\
  (example_inputs 2 = [rank0_of_2; rank1_of_2] /\
   copies (example_row 0 2 1) (global_rows (example_run 2)) = 1%nat /\
   copies (example_row 1 1 4) (global_rows (example_run 2)) = 2%nat /\
   copies (example_row 2 4 3) (global_rows (example_run 2)) = 1%nat /\
   length (global_rows (example_run 2)) = 4%nat).
Proof. repeat split; vm_compute; reflexivity. Qed.

(* ================================================================== *)
(** * Partition geometry *)
(* ================================================================== *)

(** C4 (as amended). For a length [0 <= total <= 2^53] and a participant
    count [1 <= P < 2^31] the intervals [[get_start r, get_end r)] of the ranks
    [0 <= r < P] start at [0], end at [total], follow one another without a
    gap, and every index of [[0, total)] lies in the interval of exactly one
    rank; no interval reaches outside [[0, total)]. This includes
    [total < P] and [total] not divisible by [P]. *)
Theorem partition_exact_cover (total num_pes : Z) :
  0 <= total <= 2 ^ 53 -> 1 <= num_pes < 2 ^ 31 ->
  get_start total num_pes 0 = 0 /\
  get_end total num_pes (num_pes - 1) = total /\
  (forall r, 0 <= r < num_pes ->
     get_start total num_pes r <= get_end total num_pes r) /\
  (forall r, 0 <= r < num_pes - 1 ->
     get_end total num_pes r = get_start total num_pes (r + 1)) /\
  (forall i, 0 <= i < total ->
     exists r, 0 <= r < num_pes /\ owns total num_pes r i /\
       forall r', 0 <= r' < num_pes -> owns total num_pes r' i -> r' = r) /\
  (forall r i, 0 <= r < num_pes -> owns total num_pes r i -> 0 <= i < total).
Proof.
  intros Ht Hp.
  pose proof (chunk_bounds total num_pes ltac:(lia)) as Hc.
  assert (Hs : forall r, 0 <= r < num_pes ->
            get_start total num_pes r
            = Z.min total (r * ceil_div total num_pes))
    by (intros; now apply get_start_min).
  assert (He : forall r, 0 <= r < num_pes ->
            get_end total num_pes r
            = Z.min total ((r + 1) * ceil_div total num_pes))
    by (intros; now apply get_end_min).
  set (c := ceil_div total num_pes) in *. clearbody c.
  split; [|split; [|split; [|split; [|split]]]].
  - rewrite Hs by lia. lia.
  - rewrite He by lia. nia.
  - intros r Hr. rewrite Hs, He by lia. nia.
  - intros r Hr. rewrite Hs, He by lia. reflexivity.
  - intros i Hi. assert (Hc1 : 1 <= c) by nia.
    pose proof (Z.div_mod i c ltac:(lia)) as Hdiv.
    pose proof (Z.mod_pos_bound i c ltac:(lia)) as Hmod.
    exists (i / c). set (r := i / c) in *. clearbody r.
    assert (Hr : 0 <= r < num_pes) by nia.
    split; [assumption|]. split.
    + unfold owns. rewrite Hs, He by lia. nia.
    + intros r' Hr'. unfold owns. rewrite Hs, He by lia. nia.
  - intros r i Hr. unfold owns. rewrite Hs, He by lia. nia.
Qed.

Lemma partition_exact_cover_witness :
  get_start 3 5 0 = 0 /\
  get_end 3 5 (5 - 1) = 3 /\
  (forall r, 0 <= r < 5 -> get_start 3 5 r <= get_end 3 5 r) /\
  (forall r, 0 <= r < 5 - 1 -> get_end 3 5 r = get_start 3 5 (r + 1)) /\
  (forall i, 0 <= i < 3 ->
     exists r, 0 <= r < 5 /\ owns 3 5 r i /\
       forall r', 0 <= r' < 5 -> owns 3 5 r' i -> r' = r) /\
  (forall r i, 0 <= r < 5 -> owns 3 5 r i -> 0 <= i < 3).
Proof. apply (partition_exact_cover 3 5); lia. Defined.

(** C4 as stated fails above [2^53]: with [total = 2^53 + 1] and one
    participant the only interval is [[0, 2^53)], and the index [2^53] of
    [[0, total)] belongs to no rank. *)
Lemma partition_gap_above_2p53 :
  get_start (2 ^ 53 + 1) 1 0 = 0 /\
  get_end (2 ^ 53 + 1) 1 0 = 2 ^ 53 /\
  2 ^ 53 < 2 ^ 53 + 1.
Proof. repeat split. Qed.

(** C5 (as amended). For a length [0 <= total <= 2^53], a participant count
    [1 <= P < 2^31] and a rank [0 <= r < P], [get_start] is
    [min(total, r * ceil(total / P))], [get_end] is
    [min(total, (r + 1) * ceil(total / P))] with the exact integer ceiling,
    and [get_node_portion] is their difference. *)
Theorem partition_formulas (total num_pes r : Z) :
  0 <= total <= 2 ^ 53 -> 1 <= num_pes < 2 ^ 31 -> 0 <= r < num_pes ->
  get_start total num_pes r = Z.min total (r * ceil_div total num_pes) /\
  get_end total num_pes r = Z.min total ((r + 1) * ceil_div total num_pes) /\
  get_node_portion total num_pes r =
    get_end total num_pes r - get_start total num_pes r.
Proof.
  intros Ht Hp Hr. repeat split.
  - now apply get_start_min.
  - now apply get_end_min.
  - now apply get_node_portion_diff.
Qed.

Lemma partition_formulas_witness :
  get_start 10 4 3 = Z.min 10 (3 * ceil_div 10 4) /\
  get_end 10 4 3 = Z.min 10 ((3 + 1) * ceil_div 10 4) /\
  get_node_portion 10 4 3 = get_end 10 4 3 - get_start 10 4 3.
Proof. apply (partition_formulas 10 4 3); lia. Defined.

(** C5 as stated fails above [2^53]: the conversion of [total = 2^53 + 1] to
    [double] rounds to [2^53], so with one participant [get_end] stops one
    short of [min(total, 1 * ceil(total / 1)) = total]. *)
Lemma div_chunk_rounds_above_2p53 :
  get_end (2 ^ 53 + 1) 1 0 = 2 ^ 53 /\
  Z.min (2 ^ 53 + 1) ((0 + 1) * ceil_div (2 ^ 53 + 1) 1) = 2 ^ 53 + 1.
Proof. split; vm_compute; reflexivity. Qed.

(* ================================================================== *)
(** * The join as the code performs it *)
(* ================================================================== *)

(** C6. When the build relation is empty on every rank, or the probe
    relation (key and payload vectors) is empty on every rank, every rank's
    output chunk is empty. *)
Theorem empty_relation_empty_output (inputs : list rank_input) :
  Forall (fun i => in_keys1 i = []) inputs \/
  Forall (fun i => in_keys2 i = [] /\ in_data0 i = [] /\ in_data1 i = [])
         inputs ->
  Forall (fun o => o = Some empty_chunk) (spmd_run inputs).
Proof.
  intros H. unfold spmd_run. apply Forall_map.
  destruct H as [H|H]; eapply Forall_impl; try exact H; cbv beta.
  - intros i Hi. unfold join_on, parallel_join_impl, local_join_impl.
    now rewrite Hi.
  - intros i (Hi & _ & _). unfold join_on, parallel_join_impl, local_join_impl.
    rewrite Hi. apply join_loop_no_probe.
Qed.

Lemma empty_relation_empty_output_witness :
  Forall (fun o => o = Some empty_chunk)
         (spmd_run [mk_input [] [1; 0] (map double_of_int [1; 2]) [4; 1];
                    mk_input [] [4] (map double_of_int [3]) [2]]).
Proof.
  apply empty_relation_empty_output. left.
  repeat constructor.
Defined.

(** C7 (as amended). The join validates nothing and enters no collective. It
    reads a payload vector out of bounds exactly when some build key has a
    match in [keys2] and the [int] that holds the position of the first match
    is no index of a payload vector. For a probe key vector of at most [2^31]
    elements that [int] is the position itself: the join reads out of bounds
    exactly when a first match lies at a position that a payload vector does
    not have, and it returns a chunk whenever both payload vectors are at
    least as long as [keys2], whether or not the three lengths agree. *)
Theorem join_out_of_bounds_iff (keys1 keys2 : list Z) (data0 : list double)
    (data1 : list Z) :
  (parallel_join_impl keys1 keys2 data0 data1 = None <->
   exists k, In k keys1 /\ reads_out_of_bounds keys2 data0 data1 k) /\
  (Z.of_nat (length keys2) <= 2 ^ 31 ->
   (parallel_join_impl keys1 keys2 data0 data1 = None <->
    exists k, In k keys1 /\ first_match_past_end keys2 data0 data1 k) /\
   ((length keys2 <= length data0)%nat -> (length keys2 <= length data1)%nat ->
    exists out, parallel_join_impl keys1 keys2 data0 data1 = Some out)).
Proof.
  split; [apply local_join_none|].
  intros Hlen. split.
  - unfold parallel_join_impl. rewrite local_join_none.
    split; intros (k & Hin & Hk); exists k; (split; [assumption|]);
      now apply (reads_out_of_bounds_bounded keys2 data0 data1 k Hlen).
  - intros H0 H1. now apply local_join_returns.
Qed.

Lemma join_out_of_bounds_iff_witness :
  Z.of_nat (length [1]) <= 2 ^ 31 /\
  Nat.le (length [1]) (length (map double_of_int [1; 2])) /\
  Nat.le (length [1]) (length [3]) /\
  exists out,
    parallel_join_impl [1] [1] (map double_of_int [1; 2]) [3] = Some out.
Proof.
  assert (Hlen : Z.of_nat (length [1]) <= 2 ^ 31) by (cbn; lia).
  assert (H0 : Nat.le (length [1]) (length (map double_of_int [1; 2])))
    by (cbn; lia).
  assert (H1 : Nat.le (length [1]) (length [3])) by (cbn; lia).
  split; [exact Hlen|]. split; [exact H0|]. split; [exact H1|].
  exact (proj2 (proj2 (join_out_of_bounds_iff
                         [1] [1] (map double_of_int [1; 2]) [3]) Hlen)
               H0 H1).
Defined.

(** C7 as stated fails: with [keys2] longer than [data0] the join reads
    [data0[1]] past its end, and with payload vectors of different lengths
    it returns a chunk instead of rejecting the input. *)
Lemma mismatched_lengths_not_rejected :
  Nat.lt (length (map double_of_int [5])) (length [0; 1]) /\
  parallel_join_impl [1] [0; 1] (map double_of_int [5]) [7; 8] = None /\
  length [1] <> length (map double_of_int [1; 2]) /\
  parallel_join_impl [1] [1] (map double_of_int [1; 2]) [3] =
    Some ([1], [double_of_int 1], [3]).
Proof. repeat split; cbn; lia || discriminate. Qed.

(** Why C7 and C8 bound the probe key vector: with three probe columns of
    [2^31 + 1] rows each and the only match in the last row, [index] is
    [INT_MIN] and the join reads out of bounds. *)
Lemma equal_lengths_beyond_int_range :
  length (far_keys (Z.to_nat (2 ^ 31))) = S (Z.to_nat (2 ^ 31)) /\
  length (far_data0 (Z.to_nat (2 ^ 31))) = S (Z.to_nat (2 ^ 31)) /\
  length (far_data1 (Z.to_nat (2 ^ 31))) = S (Z.to_nat (2 ^ 31)) /\
  parallel_join_impl [1] (far_keys (Z.to_nat (2 ^ 31)))
    (far_data0 (Z.to_nat (2 ^ 31))) (far_data1 (Z.to_nat (2 ^ 31))) = None.
Proof.
  destruct (far_lengths (Z.to_nat (2 ^ 31))) as (Hk & H0 & H1).
  split; [exact Hk|]. split; [exact H0|]. split; [exact H1|].
  apply far_join_negative.
  unfold index_of. rewrite Z2Nat.id by lia. reflexivity.
Qed.

(** C8. The three vectors [parallel_join_impl] returns have the same length,
    for every input on which it returns; and it does return whenever the
    probe key vector has at most [2^31] elements and both payload vectors are
    at least as long. *)
Theorem output_columns_equal_length (keys1 keys2 : list Z)
    (data0 : list double) (data1 : list Z) :
  (Z.of_nat (length keys2) <= 2 ^ 31 ->
   (length keys2 <= length data0)%nat -> (length keys2 <= length data1)%nat ->
   exists out, parallel_join_impl keys1 keys2 data0 data1 = Some out) /\
  (forall ks a b,
     parallel_join_impl keys1 keys2 data0 data1 = Some (ks, a, b) ->
     length ks = length a /\ length a = length b).
Proof.
  split.
  - intros Hlen H0 H1. now apply local_join_returns.
  - intros ks a b Hout.
    apply local_join_some in Hout as (rs & _ & Hout).
    symmetry in Hout. apply chunk_of_rows_lengths in Hout. lia.
Qed.

Lemma output_columns_equal_length_witness :
  (exists out,
     parallel_join_impl [0; 1; 1] [1; 0; 4] (map double_of_int [1; 2; 3])
                        [4; 1; 2] = Some out) /\
  length [0; 1; 1] = length (map double_of_int [2; 1; 1]) /\
  length (map double_of_int [2; 1; 1]) = length [1; 4; 4].
Proof.
  split.
  - apply (proj1 (output_columns_equal_length
                    [0; 1; 1] [1; 0; 4] (map double_of_int [1; 2; 3]) [4; 1; 2]));
      cbn; lia.
  - apply (proj2 (output_columns_equal_length
                    [0; 1; 1] [1; 0; 4] (map double_of_int [1; 2; 3]) [4; 1; 2])).
    reflexivity.
Defined.

(** C9. [parallel_join_impl] is [local_join_impl] on the chunks it is given;
    in a run over all ranks the output of rank [r] is the local join of rank
    [r]'s own chunks, whatever the other ranks hold. Every row rank [r] emits
    carries a key that rank [r] holds both in its build column and in its
    probe key column, with the two payloads that stand in rank [r]'s own
    payload columns at the [int] index of the key's first match in the probe
    key column; for a probe key column of at most [2^31] elements that is the
    matching probe row itself. *)
Theorem parallel_join_is_local_join (inputs : list rank_input) (r : nat)
    (i : rank_input) :
  nth_error inputs r = Some i ->
  parallel_join_impl (in_keys1 i) (in_keys2 i) (in_data0 i) (in_data1 i) =
    local_join_impl (in_keys1 i) (in_keys2 i) (in_data0 i) (in_data1 i) /\
  nth_error (spmd_run inputs) r =
    Some (local_join_impl (in_keys1 i) (in_keys2 i) (in_data0 i) (in_data1 i)) /\
  forall out k a b,
    nth_error (spmd_run inputs) r = Some (Some out) ->
    In (k, a, b) (rows_of out) ->
    exists jb jp ip,
      nth_error (in_keys1 i) jb = Some k /\
      first_match (in_keys2 i) k jp /\
      index_of jp = Z.of_nat ip /\
      nth_error (in_data0 i) ip = Some a /\
      nth_error (in_data1 i) ip = Some b /\
      (Z.of_nat (length (in_keys2 i)) <= 2 ^ 31 -> ip = jp).
Proof.
  intros Hi.
  assert (Hrun : nth_error (spmd_run inputs) r =
    Some (local_join_impl (in_keys1 i) (in_keys2 i) (in_data0 i) (in_data1 i))).
  { unfold spmd_run. rewrite nth_error_map, Hi. reflexivity. }
  split; [reflexivity|]. split; [exact Hrun|].
  intros out k a b Hout Hin. rewrite Hrun in Hout. injection Hout as Hout.
  apply local_join_some in Hout as (rs & Hrs & ->).
  rewrite rows_of_chunk_of_rows in Hin.
  destruct (join_rows_origin _ _ _ _ _ Hrs _ _ _ Hin)
    as (Hk & Hfm & Hpos & Ha & Hb).
  apply In_nth_error in Hk as [jb Hjb].
  exists jb, (std_find (in_keys2 i) k),
         (Z.to_nat (index_of (std_find (in_keys2 i) k))).
  split; [exact Hjb|]. split; [exact Hfm|].
  split; [now rewrite Z2Nat.id|]. split; [exact Ha|]. split; [exact Hb|].
  intros Hlen. destruct Hfm as [Hnth _].
  assert (Hlt : (std_find (in_keys2 i) k < length (in_keys2 i))%nat)
    by (apply nth_error_Some; congruence).
  rewrite index_of_small by lia. apply Nat2Z.id.
Qed.

Lemma parallel_join_is_local_join_witness :
  nth_error (spmd_run [rank0_of_2; rank1_of_2]) 1 =
    Some (local_join_impl [2; 1; 0] [2; 5; 3] (map double_of_int [4; 5; 6])
                          [3; 0; 5]) /\
  forall out k a b,
    nth_error (spmd_run [rank0_of_2; rank1_of_2]) 1 = Some (Some out) ->
    In (k, a, b) (rows_of out) ->
    exists jb jp ip,
      nth_error [2; 1; 0] jb = Some k /\
      first_match [2; 5; 3] k jp /\
      index_of jp = Z.of_nat ip /\
      nth_error (map double_of_int [4; 5; 6]) ip = Some a /\
      nth_error [3; 0; 5] ip = Some b /\
      (Z.of_nat (length [2; 5; 3]) <= 2 ^ 31 -> ip = jp).
Proof.
  apply (parallel_join_is_local_join [rank0_of_2; rank1_of_2] 1 rank1_of_2).
  reflexivity.
Defined.

(** C10 (as amended). When [local_join_impl] returns, its output has no more
    rows than [keys1] has elements. For a probe key vector of at most [2^31]
    elements the output is, in the order of [keys1], one group per build key:
    no row when [keys2] does not hold the key, and otherwise the single row
    [(keys2[j], data0[j], data1[j])] at the smallest [j] with
    [keys2[j] = keys1[i]]. *)
Theorem join_emits_first_match_per_build_key (keys1 keys2 : list Z)
    (data0 : list double) (data1 : list Z) (out : chunk) :
  local_join_impl keys1 keys2 data0 data1 = Some out ->
  (length (fst (fst out)) <= length keys1)%nat /\
  (Z.of_nat (length keys2) <= 2 ^ 31 ->
   exists rss : list (list row),
     Forall2 (emits keys2 data0 data1) keys1 rss /\
     Forall (fun rs => length rs <= 1)%nat rss /\
     rows_of out = concat rss /\
     out = chunk_of_rows (concat rss)).
Proof.
  intros Hout.
  apply local_join_some in Hout as (rs & Hrs & ->). split.
  - cbn [chunk_of_rows fst]. rewrite length_map.
    eapply join_rows_length; eassumption.
  - intros Hlen.
    destruct (join_rows_emits _ _ _ _ Hlen _ Hrs) as (rss & Hrss & Hone & ->).
    exists rss. split; [assumption|]. split; [assumption|]. split.
    + apply rows_of_chunk_of_rows.
    + reflexivity.
Qed.

Lemma join_emits_first_match_per_build_key_witness :
  Nat.le (length [0; 1; 1]) (length [0; 1; 1]) /\
  exists rss : list (list row),
    Forall2 (emits [1; 0; 4] (map double_of_int [1; 2; 3]) [4; 1; 2])
            [0; 1; 1] rss /\
    Forall (fun rs => length rs <= 1)%nat rss /\
    rows_of rank0_of_2_output = concat rss /\
    rank0_of_2_output = chunk_of_rows (concat rss).
Proof.
  destruct (join_emits_first_match_per_build_key
              [0; 1; 1] [1; 0; 4] (map double_of_int [1; 2; 3]) [4; 1; 2]
              rank0_of_2_output eq_refl) as [Hlen Hrows].
  split; [exact Hlen|]. apply Hrows. cbn. lia.
Defined.

(** C10 as stated fails beyond the range of [int]: in a probe relation of
    [2^32 + 6] rows whose only row with key 1 is the last one,
    [(1, 1.0, 1)] at position [2^32 + 5], [index] is [5] and the join returns
    the payloads of row 5, [(1, 0.0, 0)]. *)
Lemma first_match_beyond_int_range :
  first_match (far_keys (Z.to_nat (2 ^ 32 + 5))) 1 (Z.to_nat (2 ^ 32 + 5)) /\
  nth_error (far_data0 (Z.to_nat (2 ^ 32 + 5))) (Z.to_nat (2 ^ 32 + 5)) =
    Some (double_of_int 1) /\
  nth_error (far_data1 (Z.to_nat (2 ^ 32 + 5))) (Z.to_nat (2 ^ 32 + 5)) =
    Some 1 /\
  local_join_impl [1] (far_keys (Z.to_nat (2 ^ 32 + 5)))
    (far_data0 (Z.to_nat (2 ^ 32 + 5))) (far_data1 (Z.to_nat (2 ^ 32 + 5))) =
    Some ([1], [double_of_int 0], [0]).
Proof.
  split; [apply far_first_match|].
  split; [apply nth_error_repeat_last|].
  split; [apply nth_error_repeat_last|].
  apply (far_join_wrapped (Z.to_nat (2 ^ 32 + 5)) 5).
  - unfold index_of. rewrite Z2Nat.id by lia. reflexivity.
  - apply Nat2Z.inj_lt. rewrite Z2Nat.id by lia. reflexivity.
Qed.

(* ================================================================== *)
(** * Further properties of the partition helpers *)
(* ================================================================== *)

Section MoreGeometry.

Lemma Zsum_app (l l' : list Z) : Zsum (l ++ l') = Zsum l + Zsum l'.
Proof. unfold Zsum. induction l as [|x l IH]; cbn; [reflexivity|]. lia. Qed.

Lemma ranks_succ (n : nat) :
  map Z.of_nat (seq 0 (S n)) = map Z.of_nat (seq 0 n) ++ [Z.of_nat n].
Proof. rewrite seq_S, map_app. reflexivity. Qed.

Lemma in_ranks (num_pes r : Z) : In r (ranks num_pes) <-> 0 <= r < num_pes.
Proof.
  unfold ranks. rewrite in_map_iff. split.
  - intros (k & <- & Hk). apply in_seq in Hk. lia.
  - intros Hr. exists (Z.to_nat r). split; [lia|]. apply in_seq. lia.
Qed.

(** The portions of the first [n] ranks add up to where rank [n] starts. *)
Lemma portions_prefix (total num_pes : Z) (n : nat) :
  0 <= total <= 2 ^ 53 -> 1 <= num_pes < 2 ^ 31 -> Z.of_nat n <= num_pes ->
  Zsum (map (get_node_portion total num_pes) (map Z.of_nat (seq 0 n))) =
  Z.min total (Z.of_nat n * ceil_div total num_pes).
Proof.
  intros Ht Hp. pose proof (chunk_bounds total num_pes Ht Hp) as Hc.
  induction n as [|n IH]; intros Hn.
  - cbn. lia.
  - rewrite ranks_succ, map_app, Zsum_app, IH by lia. cbn [map Zsum fold_right].
    rewrite get_node_portion_diff, get_start_min, get_end_min by lia.
    replace (Z.of_nat (S n)) with (Z.of_nat n + 1) by lia. lia.
Qed.

Lemma portion_bounds (total num_pes r : Z) :
  0 <= total <= 2 ^ 53 -> 1 <= num_pes < 2 ^ 31 -> 0 <= r < num_pes ->
  0 <= get_node_portion total num_pes r <= total.
Proof.
  intros Ht Hp Hr. pose proof (chunk_bounds total num_pes Ht Hp) as Hc.
  rewrite get_node_portion_diff, get_start_min, get_end_min by lia. nia.
Qed.

End MoreGeometry.

(** X1. For a length [0 <= total <= 2^53] and [1 <= P < 2^31] participants
    the chunk sizes [get_node_portion] of the ranks [0 .. P-1] add up to
    [total]. *)
Theorem portions_sum_to_total (total num_pes : Z) :
  0 <= total <= 2 ^ 53 -> 1 <= num_pes < 2 ^ 31 ->
  Zsum (map (get_node_portion total num_pes) (ranks num_pes)) = total.
Proof.
  intros Ht Hp. unfold ranks. rewrite portions_prefix by lia.
  pose proof (chunk_bounds total num_pes Ht Hp). lia.
Qed.

Lemma portions_sum_to_total_witness :
  Zsum (map (get_node_portion 10 4) (ranks 4)) = 10.
Proof. apply (portions_sum_to_total 10 4); lia. Defined.

(** X2. On the same range every chunk size lies between [0] and the ceiling
    [c] of [total / P], and the sizes never grow with the rank: the full
    chunks come first, then one shorter chunk, then empty ones. Rank [r] gets
    [c] elements when [(r + 1) * c <= total], the remainder [total - r * c]
    when [r * c <= total <= (r + 1) * c], and nothing when [total <= r * c]. *)
Theorem portions_balanced (total num_pes : Z) :
  0 <= total <= 2 ^ 53 -> 1 <= num_pes < 2 ^ 31 ->
  (forall r, 0 <= r < num_pes ->
     0 <= get_node_portion total num_pes r <= ceil_div total num_pes) /\
  (forall r, 0 <= r < num_pes -> (r + 1) * ceil_div total num_pes <= total ->
     get_node_portion total num_pes r = ceil_div total num_pes) /\
  (forall r, 0 <= r < num_pes ->
     r * ceil_div total num_pes <= total <= (r + 1) * ceil_div total num_pes ->
     get_node_portion total num_pes r = total - r * ceil_div total num_pes) /\
  (forall r, 0 <= r < num_pes -> total <= r * ceil_div total num_pes ->
     get_node_portion total num_pes r = 0) /\
  (forall r r', 0 <= r <= r' -> r' < num_pes ->
     get_node_portion total num_pes r' <= get_node_portion total num_pes r).
Proof.
  intros Ht Hp. pose proof (chunk_bounds total num_pes Ht Hp) as Hc.
  assert (Hpor : forall r, 0 <= r < num_pes ->
            get_node_portion total num_pes r =
            Z.min total ((r + 1) * ceil_div total num_pes)
            - Z.min total (r * ceil_div total num_pes)).
  { intros r Hr.
    now rewrite get_node_portion_diff, get_start_min, get_end_min. }
  set (c := ceil_div total num_pes) in *. clearbody c.
  split; [|split; [|split; [|split]]].
  - intros r Hr. rewrite Hpor by lia. nia.
  - intros r Hr Hfit. rewrite Hpor by lia. nia.
  - intros r Hr Hlast. rewrite Hpor by lia. lia.
  - intros r Hr Hpast. rewrite Hpor by lia. nia.
  - intros r r' Hr Hr'. rewrite !Hpor by lia.
    destruct (Z.eq_dec r r') as [->|Hne]; [lia|].
    assert ((r + 1) * c <= r' * c) by nia. nia.
Qed.

Lemma portions_balanced_witness :
  (forall r, 0 <= r < 5 -> 0 <= get_node_portion 11 5 r <= ceil_div 11 5) /\
  (forall r, 0 <= r < 5 -> (r + 1) * ceil_div 11 5 <= 11 ->
     get_node_portion 11 5 r = ceil_div 11 5) /\
  (forall r, 0 <= r < 5 ->
     r * ceil_div 11 5 <= 11 <= (r + 1) * ceil_div 11 5 ->
     get_node_portion 11 5 r = 11 - r * ceil_div 11 5) /\
  (forall r, 0 <= r < 5 -> 11 <= r * ceil_div 11 5 ->
     get_node_portion 11 5 r = 0) /\
  (forall r r', 0 <= r <= r' -> r' < 5 ->
     get_node_portion 11 5 r' <= get_node_portion 11 5 r).
Proof. apply (portions_balanced 11 5); lia. Defined.

(** X3. With no more elements than participants ([0 <= total <= P],
    [P < 2^31]) rank [r] owns the single index [r] when [r < total] and
    nothing otherwise: [get_start] is [min(r, total)] and [get_end] is
    [min(r + 1, total)]. *)
Theorem fewer_elements_than_ranks (total num_pes r : Z) :
  0 <= total <= num_pes -> 1 <= num_pes < 2 ^ 31 -> 0 <= r < num_pes ->
  get_start total num_pes r = Z.min r total /\
  get_end total num_pes r = Z.min (r + 1) total /\
  get_node_portion total num_pes r = (if r <? total then 1 else 0).
Proof.
  intros Ht Hp Hr.
  assert (Ht' : 0 <= total <= 2 ^ 53) by lia.
  rewrite get_node_portion_diff, get_start_min, get_end_min by lia.
  pose proof (ceil_div_bounds total num_pes ltac:(lia)) as Hc.
  assert (Hc1 : ceil_div total num_pes = if total =? 0 then 0 else 1).
  { destruct (Z.eqb_spec total 0); nia. }
  rewrite Hc1.
  destruct (Z.eqb_spec total 0); destruct (Z.ltb_spec r total); lia.
Qed.

Lemma fewer_elements_than_ranks_witness :
  get_start 3 5 4 = Z.min 4 3 /\
  get_end 3 5 4 = Z.min (4 + 1) 3 /\
  get_node_portion 3 5 4 = (if 4 <? 3 then 1 else 0).
Proof. apply (fewer_elements_than_ranks 3 5 4); lia. Defined.

(** X4. When [P] divides the length ([total = P * q <= 2^53]) every rank
    gets exactly [q] elements: rank [r] owns [[r * q, (r + 1) * q)]. *)
Theorem even_split (num_pes q r : Z) :
  0 <= q -> num_pes * q <= 2 ^ 53 -> 1 <= num_pes < 2 ^ 31 ->
  0 <= r < num_pes ->
  get_start (num_pes * q) num_pes r = r * q /\
  get_end (num_pes * q) num_pes r = (r + 1) * q /\
  get_node_portion (num_pes * q) num_pes r = q.
Proof.
  intros Hq Ht Hp Hr.
  assert (Ht' : 0 <= num_pes * q <= 2 ^ 53) by nia.
  rewrite get_node_portion_diff, get_start_min, get_end_min by lia.
  assert (Hc : ceil_div (num_pes * q) num_pes = q)
    by (apply ceil_div_unique; nia).
  rewrite Hc. nia.
Qed.

Lemma even_split_witness :
  get_start (4 * 3) 4 2 = 2 * 3 /\
  get_end (4 * 3) 4 2 = (2 + 1) * 3 /\
  get_node_portion (4 * 3) 4 2 = 3.
Proof. apply (even_split 4 3 2); lia. Defined.

(* ================================================================== *)
(** * Further properties of [generate_example_inputs] *)
(* ================================================================== *)

Section Slices.

Context {A : Type}.

Lemma firstn_plus (a k : nat) (l : list A) :
  firstn (a + k) l = firstn a l ++ firstn k (skipn a l).
Proof.
  revert l. induction a as [|a IH]; intros l; [reflexivity|].
  destruct l as [|x l]; cbn.
  - now rewrite firstn_nil.
  - now rewrite IH.
Qed.

Lemma slice_length (v : list A) (first last : Z) :
  0 <= first <= last -> last <= Z.of_nat (length v) ->
  length (slice v first last) = Z.to_nat (last - first).
Proof.
  intros Hf Hl. unfold slice. rewrite length_firstn, length_skipn. lia.
Qed.

(** The chunks of the first [n] ranks, one after the other, are the vector
    up to where rank [n] starts. *)
Lemma slices_prefix (v : list A) (num_pes : Z) (n : nat) :
  Z.of_nat (length v) <= 2 ^ 53 -> 1 <= num_pes < 2 ^ 31 ->
  Z.of_nat n <= num_pes ->
  concat (map (fun r => slice v (get_start (Z.of_nat (length v)) num_pes r)
                                (get_end (Z.of_nat (length v)) num_pes r))
              (map Z.of_nat (seq 0 n))) =
  firstn (Z.to_nat (Z.min (Z.of_nat (length v))
                          (Z.of_nat n * ceil_div (Z.of_nat (length v)) num_pes)))
         v.
Proof.
  intros Hv Hp.
  pose proof (chunk_bounds (Z.of_nat (length v)) num_pes ltac:(lia) Hp) as Hc.
  induction n as [|n IH]; intros Hn.
  - cbn. rewrite Z.min_r by lia. reflexivity.
  - rewrite ranks_succ, map_app, concat_app, IH by lia.
    cbn [map concat]. rewrite app_nil_r.
    rewrite get_start_min, get_end_min by lia. unfold slice.
    set (c := ceil_div (Z.of_nat (length v)) num_pes) in *.
    set (a := Z.min (Z.of_nat (length v)) (Z.of_nat n * c)).
    set (b := Z.min (Z.of_nat (length v)) ((Z.of_nat n + 1) * c)).
    replace (Z.of_nat (S n) * c) with ((Z.of_nat n + 1) * c) by lia. fold b.
    assert (Hab : 0 <= a <= b) by (unfold a, b; nia).
    rewrite <- firstn_plus. f_equal. lia.
Qed.

Lemma slices_concat (v : list A) (num_pes : Z) :
  Z.of_nat (length v) <= 2 ^ 53 -> 1 <= num_pes < 2 ^ 31 ->
  concat (map (fun r => slice v (get_start (Z.of_nat (length v)) num_pes r)
                                (get_end (Z.of_nat (length v)) num_pes r))
              (ranks num_pes)) = v.
Proof.
  intros Hv Hp. unfold ranks. rewrite slices_prefix by lia.
  pose proof (chunk_bounds (Z.of_nat (length v)) num_pes ltac:(lia) Hp) as Hc.
  rewrite Z.min_l by lia. rewrite Nat2Z.id. apply firstn_all.
Qed.

Lemma slice_rank_length (v : list A) (num_pes r : Z) :
  Z.of_nat (length v) <= 2 ^ 53 -> 1 <= num_pes < 2 ^ 31 -> 0 <= r < num_pes ->
  length (slice v (get_start (Z.of_nat (length v)) num_pes r)
                  (get_end (Z.of_nat (length v)) num_pes r)) =
  Z.to_nat (get_node_portion (Z.of_nat (length v)) num_pes r).
Proof.
  intros Hv Hp Hr.
  pose proof (chunk_bounds (Z.of_nat (length v)) num_pes ltac:(lia) Hp) as Hc.
  rewrite get_node_portion_diff by lia.
  apply slice_length; rewrite ?get_start_min, ?get_end_min by lia; nia.
Qed.

End Slices.

(** X5. [generate_example_inputs] deals the four columns of the example out
    in rank order: for every participant count [1 <= P < 2^31] the chunks of
    the ranks [0 .. P-1], concatenated, are the global columns again. *)
Theorem example_chunks_concat (n_pes : Z) :
  1 <= n_pes < 2 ^ 31 ->
  concat (map in_keys1 (example_inputs n_pes)) = keys1_global /\
  concat (map in_keys2 (example_inputs n_pes)) = keys2_global /\
  concat (map in_data0 (example_inputs n_pes)) = data0_global /\
  concat (map in_data1 (example_inputs n_pes)) = data1_global.
Proof.
  intros Hp. unfold example_inputs. rewrite !map_map.
  cbn [in_keys1 in_keys2 in_data0 in_data1 generate_example_inputs].
  repeat split.
  - apply (slices_concat keys1_global n_pes); [cbn|]; lia.
  - apply (slices_concat keys2_global n_pes); [cbn|]; lia.
  - apply (slices_concat data0_global n_pes); [cbn|]; lia.
  - apply (slices_concat data1_global n_pes); [cbn|]; lia.
Qed.

Lemma example_chunks_concat_witness :
  concat (map in_keys1 (example_inputs 4)) = keys1_global /\
  concat (map in_keys2 (example_inputs 4)) = keys2_global /\
  concat (map in_data0 (example_inputs 4)) = data0_global /\
  concat (map in_data1 (example_inputs 4)) = data1_global.
Proof. apply (example_chunks_concat 4); lia. Defined.

Lemma example_lengths (rank n_pes : Z) :
  1 <= n_pes < 2 ^ 31 -> 0 <= rank < n_pes ->
  let i := generate_example_inputs rank n_pes in
  let n := Z.to_nat (get_node_portion 6 n_pes rank) in
  length (in_keys1 i) = n /\ length (in_keys2 i) = n /\
  length (in_data0 i) = n /\ length (in_data1 i) = n.
Proof.
  intros Hp Hr. cbv zeta.
  cbn [in_keys1 in_keys2 in_data0 in_data1 generate_example_inputs].
  repeat split.
  - apply (slice_rank_length keys1_global n_pes rank); [cbn|..]; lia.
  - apply (slice_rank_length keys2_global n_pes rank); [cbn|..]; lia.
  - apply (slice_rank_length data0_global n_pes rank); [cbn|..]; lia.
  - apply (slice_rank_length data1_global n_pes rank); [cbn|..]; lia.
Qed.

(** A join whose probe key vector has at most [2^31] elements and whose
    payload vectors are as long returns. *)
Lemma join_on_returns (i : rank_input) :
  Z.of_nat (length (in_keys2 i)) <= 2 ^ 31 ->
  (length (in_keys2 i) <= length (in_data0 i))%nat ->
  (length (in_keys2 i) <= length (in_data1 i))%nat ->
  exists out, join_on i = Some out.
Proof.
  intros Hlen H0 H1. unfold join_on, parallel_join_impl.
  now apply local_join_returns.
Qed.

(** X6. In the chunk [generate_example_inputs] gives a rank [0 <= r < P]
    the four columns all have [get_node_portion(6, P, r)] elements: probe key
    and payloads stay aligned row by row. *)
Theorem example_chunk_lengths (rank n_pes : Z) :
  1 <= n_pes < 2 ^ 31 -> 0 <= rank < n_pes ->
  let i := generate_example_inputs rank n_pes in
  let n := Z.to_nat (get_node_portion 6 n_pes rank) in
  length (in_keys1 i) = n /\ length (in_keys2 i) = n /\
  length (in_data0 i) = n /\ length (in_data1 i) = n.
Proof. exact (example_lengths rank n_pes). Qed.

Lemma example_chunk_lengths_witness :
  length (in_keys1 (generate_example_inputs 2 4)) =
    Z.to_nat (get_node_portion 6 4 2) /\
  length (in_keys2 (generate_example_inputs 2 4)) =
    Z.to_nat (get_node_portion 6 4 2) /\
  length (in_data0 (generate_example_inputs 2 4)) =
    Z.to_nat (get_node_portion 6 4 2) /\
  length (in_data1 (generate_example_inputs 2 4)) =
    Z.to_nat (get_node_portion 6 4 2).
Proof. apply (example_chunk_lengths 2 4); lia. Defined.

(** X7. On the example the join of every rank returns, for every participant
    count [1 <= P < 2^31]: no rank reads a payload vector out of bounds. *)
Theorem example_run_returns (n_pes : Z) :
  1 <= n_pes < 2 ^ 31 ->
  Forall (fun o => exists out, o = Some out) (example_run n_pes).
Proof.
  intros Hp. unfold example_run, spmd_run, example_inputs.
  apply Forall_map, Forall_map, Forall_forall. intros r Hr.
  apply in_ranks in Hr.
  destruct (example_lengths r n_pes Hp Hr) as (_ & H2 & H0 & H1).
  pose proof (portion_bounds 6 n_pes r ltac:(lia) Hp Hr) as Hn.
  apply join_on_returns; lia.
Qed.

Lemma example_run_returns_witness :
  Forall (fun o => exists out, o = Some out) (example_run 3).
Proof. apply (example_run_returns 3); lia. Defined.

(* ================================================================== *)
(** * Further properties of the generators *)
(* ================================================================== *)

Section Range.

Lemma vector_of_size_fits {A : Type} (sizeof : Z) (zero : A) (n : Z) :
  0 <= n -> n * sizeof < address_space ->
  vector_of_size sizeof zero n = Some (repeat zero (Z.to_nat n)).
Proof.
  intros Hn Hfit. unfold vector_of_size.
  replace (n <? 0) with false by (symmetry; apply Z.ltb_ge; lia).
  replace (address_space <=? n * sizeof) with false
    by (symmetry; apply Z.leb_gt; lia).
  reflexivity.
Qed.

Lemma to_uint64_small (z : Z) : 0 <= z < 2 ^ 64 -> to_uint64 z = z.
Proof. intros Hz. unfold to_uint64. now apply Z.mod_small. Qed.

Lemma Zrange_length (lo hi : Z) : length (Zrange lo hi) = Z.to_nat (hi - lo).
Proof. unfold Zrange. now rewrite length_map, length_seq. Qed.

Lemma Zrange_nil (lo hi : Z) : hi <= lo -> Zrange lo hi = [].
Proof. intros H. unfold Zrange. replace (Z.to_nat (hi - lo)) with O by lia.
  reflexivity. Qed.

Lemma Zrange_cons (lo hi : Z) :
  lo < hi -> Zrange lo hi = lo :: Zrange (lo + 1) hi.
Proof.
  intros H. unfold Zrange.
  replace (Z.to_nat (hi - lo)) with (S (Z.to_nat (hi - (lo + 1)))) by lia.
  cbn [seq map]. f_equal; [lia|].
  rewrite <- seq_shift, map_map. apply map_ext. intros k. lia.
Qed.

Lemma map_of_nat_seq (a len : nat) :
  map Z.of_nat (seq a len) =
  map (fun k => Z.of_nat a + Z.of_nat k) (seq 0 len).
Proof.
  revert a. induction len as [|len IH]; intros a; [reflexivity|].
  cbn [seq map]. f_equal; [lia|].
  rewrite IH, <- seq_shift, map_map. apply map_ext. intros k. lia.
Qed.

Lemma firstn_seq (k start len : nat) :
  firstn k (seq start len) = seq start (Nat.min k len).
Proof.
  revert start len. induction k as [|k IH]; intros start [|len];
    cbn; try reflexivity. now rewrite IH.
Qed.

(** A slice of [0 .. size-1] is the range between its bounds. *)
Lemma slice_Zrange (size lo hi : Z) :
  0 <= lo <= hi -> hi <= size ->
  slice (Zrange 0 size) lo hi = Zrange lo hi.
Proof.
  intros Hlo Hhi. unfold slice, Zrange.
  rewrite skipn_map, firstn_map, skipn_seq, firstn_seq.
  replace (Nat.min (Z.to_nat (hi - lo)) (Z.to_nat (size - 0) - Z.to_nat lo))
    with (Z.to_nat (hi - lo)) by lia.
  cbn [Nat.add]. rewrite <- (map_map Z.of_nat (fun z => 0 + z)).
  rewrite map_of_nat_seq, map_map. apply map_ext. intros k. lia.
Qed.

(** The loop of [_gen_range32] after [j] of its iterations: the first [j]
    elements are written, the rest still zero. *)
Lemma range_loop (start : Z) (k : nat) :
  0 <= start < 2 ^ 31 ->
  forall (j m : nat) (pre : list Z),
    start + Z.of_nat j + Z.of_nat k <= 2 ^ 31 ->
    length pre = j ->
    iterate k (start + Z.of_nat j)
      (fun i data => store data (to_uint64 (i - to_uint64 start)) (wrap32 i))
      (pre ++ repeat 0 (k + m)) =
    Some (pre ++ Zrange (start + Z.of_nat j) (start + Z.of_nat j + Z.of_nat k)
              ++ repeat 0 m).
Proof.
  intros Hs. rewrite (to_uint64_small start) by lia.
  induction k as [|k IH]; intros j m pre Hb Hpre.
  - cbn [iterate Nat.add ret]. rewrite Zrange_nil by lia. reflexivity.
  - cbn [iterate Nat.add repeat].
    replace (start + Z.of_nat j - start) with (Z.of_nat j) by lia.
    rewrite to_uint64_small by lia. unfold store.
    rewrite length_app. cbn [length]. rewrite Hpre.
    replace ((0 <=? Z.of_nat j) && (Z.of_nat j <? Z.of_nat (j + S (length (repeat 0 (k + m))))))
      with true by (symmetry; apply andb_true_intro; split;
                    [apply Z.leb_le|apply Z.ltb_lt]; lia).
    cbn [bind ret]. rewrite Nat2Z.id.
    rewrite firstn_app, firstn_all2 by lia.
    replace (j - length pre)%nat with O by lia. cbn [firstn]. rewrite app_nil_r.
    rewrite skipn_app, (skipn_all2 pre) by lia.
    replace (S j - length pre)%nat with 1%nat by lia. cbn [skipn app].
    rewrite wrap32_small by lia.
    replace (pre ++ (start + Z.of_nat j) :: repeat 0 (k + m))
      with ((pre ++ [start + Z.of_nat j]) ++ repeat 0 (k + m))
      by (now rewrite <- app_assoc).
    replace (start + Z.of_nat j + 1) with (start + Z.of_nat (S j)) by lia.
    rewrite IH; [|lia|rewrite length_app; cbn; lia].
    rewrite <- app_assoc. cbn [app].
    rewrite (Zrange_cons (start + Z.of_nat j)
                         (start + Z.of_nat j + Z.of_nat (S k))) by lia.
    cbn [app].
    replace (start + Z.of_nat j + 1) with (start + Z.of_nat (S j)) by lia.
    replace (start + Z.of_nat (S j) + Z.of_nat k)
      with (start + Z.of_nat j + Z.of_nat (S k)) by lia.
    reflexivity.
Qed.

Lemma gen_range32_slice (size rank n_pes : Z) :
  0 <= size <= 2 ^ 31 -> 1 <= n_pes < 2 ^ 31 -> 0 <= rank < n_pes ->
  _gen_range32 size rank n_pes =
  Some (Zrange (get_start size n_pes rank) (get_end size n_pes rank)).
Proof.
  intros Hs Hp Hr. unfold _gen_range32.
  assert (Ht : 0 <= size <= 2 ^ 53) by lia.
  pose proof (chunk_bounds size n_pes Ht Hp) as Hc.
  rewrite get_node_portion_diff by lia.
  assert (Hse : 0 <= get_start size n_pes rank <= get_end size n_pes rank
                /\ get_end size n_pes rank <= size)
    by (rewrite get_start_min, get_end_min by lia; nia).
  set (a := get_start size n_pes rank) in *.
  set (b := get_end size n_pes rank) in *. clearbody a b.
  rewrite vector_of_size_fits by (unfold address_space; lia).
  cbn [bind ret]. unfold for_loop. rewrite !to_uint64_small by lia.
  destruct (Z.eq_dec a b) as [->|Hab].
  { rewrite Z.sub_diag. cbn. now rewrite Zrange_nil by lia. }
  pose proof (range_loop a (Z.to_nat (b - a)) ltac:(lia) O O [] ltac:(lia)
                eq_refl) as H.
  rewrite Nat.add_0_r, (to_uint64_small a) in H by lia.
  cbn [app repeat Z.of_nat] in H.
  rewrite Z.add_0_r, app_nil_r in H. rewrite H. do 2 f_equal. lia.
Qed.

End Range.

(** X8. For a length [0 <= size <= 2^31], [1 <= P < 2^31] and a rank
    [0 <= r < P], [_gen_range32] returns the integers from [get_start] up to,
    not including, [get_end], in order. *)
Theorem gen_range32_chunk (size rank n_pes : Z) :
  0 <= size <= 2 ^ 31 -> 1 <= n_pes < 2 ^ 31 -> 0 <= rank < n_pes ->
  _gen_range32 size rank n_pes =
  Some (Zrange (get_start size n_pes rank) (get_end size n_pes rank)).
Proof. exact (gen_range32_slice size rank n_pes). Qed.

Lemma gen_range32_chunk_witness :
  _gen_range32 10 2 4 = Some (Zrange (get_start 10 4 2) (get_end 10 4 2)).
Proof. apply (gen_range32_chunk 10 2 4); lia. Defined.

(** X9. On the same range the chunks [_gen_range32] returns on the ranks
    [0 .. P-1], concatenated in rank order, are the vector
    [0, 1, ..., size - 1]. *)
Theorem gen_range32_concat (size n_pes : Z) :
  0 <= size <= 2 ^ 31 -> 1 <= n_pes < 2 ^ 31 ->
  exists chunks : list (list Z),
    map (fun rank => _gen_range32 size rank n_pes) (ranks n_pes) =
      map Some chunks /\
    concat chunks = Zrange 0 size.
Proof.
  intros Hs Hp.
  assert (Hlen : Z.of_nat (length (Zrange 0 size)) = size)
    by (rewrite Zrange_length; lia).
  pose proof (chunk_bounds size n_pes ltac:(lia) Hp) as Hc.
  exists (map (fun r => slice (Zrange 0 size) (get_start size n_pes r)
                              (get_end size n_pes r)) (ranks n_pes)).
  split.
  - rewrite map_map. apply map_ext_in. intros r Hr. apply in_ranks in Hr.
    rewrite gen_range32_slice by lia. f_equal. symmetry.
    apply slice_Zrange; rewrite ?get_start_min, ?get_end_min by lia; nia.
  - pose proof (slices_concat (Zrange 0 size) n_pes ltac:(lia) Hp) as H.
    rewrite Hlen in H. exact H.
Qed.

Lemma gen_range32_concat_witness :
  exists chunks : list (list Z),
    map (fun rank => _gen_range32 10 rank 4) (ranks 4) = map Some chunks /\
    concat chunks = Zrange 0 10.
Proof. apply (gen_range32_concat 10 4); lia. Defined.

Section RandomProperties.

Variable engine : Type.
Variable uniform_real_distribution : double -> double -> engine -> double * engine.
Variable uniform_int_distribution : Z -> Z -> engine -> Z * engine.

Lemma std_generate_length {A : Type} (data : list A)
    (gen : engine -> A * engine) (g : engine) :
  length (fst (std_generate engine data gen g)) = length data.
Proof.
  revert g. induction data as [|x data IH]; intros g; [reflexivity|].
  cbn [std_generate]. destruct (gen g) as [y g'].
  specialize (IH g'). destruct (std_generate engine data gen g') as [rest g''].
  cbn in *. now rewrite IH.
Qed.

Lemma std_generate_draws {A : Type} (data : list A)
    (gen : engine -> A * engine) (g : engine) :
  fst (std_generate engine data gen g) = draws gen g (length data).
Proof.
  revert g. induction data as [|x data IH]; intros g; [reflexivity|].
  cbn [std_generate draws length]. destruct (gen g) as [y g'].
  specialize (IH g'). destruct (std_generate engine data gen g') as [rest g''].
  cbn in *. now rewrite IH.
Qed.

Lemma std_generate_all {A : Type} (P : A -> Prop) (data : list A)
    (gen : engine -> A * engine) (g : engine) :
  (forall g', P (fst (gen g'))) ->
  Forall P (fst (std_generate engine data gen g)).
Proof.
  intros Hgen. revert g. induction data as [|x data IH]; intros g;
    [constructor|].
  cbn [std_generate]. pose proof (Hgen g) as Hy. destruct (gen g) as [y g'].
  specialize (IH g'). destruct (std_generate engine data gen g') as [rest g''].
  cbn in *. now constructor.
Qed.

Lemma gen_random_int32_some (high size rank n_pes : Z) (g : engine) :
  0 <= size <= 2 ^ 31 -> 1 <= n_pes < 2 ^ 31 -> 0 <= rank < n_pes ->
  0 <= high < 2 ^ 31 ->
  (forall a b g', a <= b -> a <= fst (uniform_int_distribution a b g') <= b) ->
  exists v,
    _gen_random_int32 engine uniform_int_distribution high size rank n_pes g
      = Some v /\
    length v = Z.to_nat (get_node_portion size n_pes rank) /\
    Forall (fun x => 0 <= x <= high) v.
Proof.
  intros Hs Hp Hr Hh Hdist. unfold _gen_random_int32.
  pose proof (portion_bounds size n_pes rank ltac:(lia) Hp Hr) as Hn.
  rewrite vector_of_size_fits by (unfold address_space; lia).
  cbn [bind ret]. eexists. split; [reflexivity|]. split.
  - now rewrite std_generate_length, repeat_length.
  - apply std_generate_all. intros g'.
    rewrite wrap32_small by lia. apply Hdist. lia.
Qed.

Lemma gen_random_some (size rank n_pes : Z) (g : engine) :
  0 <= size <= 2 ^ 31 -> 1 <= n_pes < 2 ^ 31 -> 0 <= rank < n_pes ->
  exists v,
    _gen_random engine uniform_real_distribution size rank n_pes g = Some v /\
    length v = Z.to_nat (get_node_portion size n_pes rank) /\
    v = draws (uniform_real_distribution (double_of_int 0) (double_of_int 1))
              g (Z.to_nat (get_node_portion size n_pes rank)) /\
    Forall (fun x => exists g',
              x = fst (uniform_real_distribution (double_of_int 0)
                                                 (double_of_int 1) g')) v.
Proof.
  intros Hs Hp Hr. unfold _gen_random.
  pose proof (portion_bounds size n_pes rank ltac:(lia) Hp Hr) as Hn.
  rewrite vector_of_size_fits by (unfold address_space; lia).
  cbn [bind ret]. eexists. split; [reflexivity|]. split; [|split].
  - now rewrite std_generate_length, repeat_length.
  - now rewrite std_generate_draws, repeat_length.
  - apply std_generate_all. intros g'. now exists g'.
Qed.

End RandomProperties.

Lemma counter_int_range (a b g : Z) :
  a <= b -> a <= fst (counter_int a b g) <= b.
Proof.
  intros Hab. unfold counter_int. cbn [fst].
  pose proof (Z.mod_pos_bound g (b - a + 1) ltac:(lia)). lia.
Qed.

(** X10. For [0 <= size <= 2^31] (a vector that fits the address space),
    [1 <= P < 2^31], a rank [0 <= r < P] and a bound [0 <= high < 2^31],
    [_gen_random_int32] returns a vector of [get_node_portion(size, P, r)]
    elements, each within [[0, high]], whatever the engine, provided the
    integer distribution keeps to its bounds. *)
Theorem gen_random_int32_spec (engine : Type)
    (uniform_int_distribution : Z -> Z -> engine -> Z * engine)
    (high size rank n_pes : Z) (g : engine) :
  0 <= size <= 2 ^ 31 -> 1 <= n_pes < 2 ^ 31 -> 0 <= rank < n_pes ->
  0 <= high < 2 ^ 31 ->
  (forall a b g', a <= b -> a <= fst (uniform_int_distribution a b g') <= b) ->
  exists v,
    _gen_random_int32 engine uniform_int_distribution high size rank n_pes g
      = Some v /\
    length v = Z.to_nat (get_node_portion size n_pes rank) /\
    Forall (fun x => 0 <= x <= high) v.
Proof. apply gen_random_int32_some. Qed.

Lemma gen_random_int32_spec_witness :
  exists v,
    _gen_random_int32 Z counter_int 6 10 1 4 0 = Some v /\
    length v = Z.to_nat (get_node_portion 10 4 1) /\
    Forall (fun x => 0 <= x <= 6) v.
Proof.
  apply (gen_random_int32_spec Z counter_int 6 10 1 4 0); try lia.
  intros a b g'. apply counter_int_range.
Defined.

(** X11. For [0 <= size <= 2^31], [1 <= P < 2^31] and a rank [0 <= r < P],
    [_gen_random] returns a vector of [get_node_portion(size, P, r)]
    elements: the values the real distribution on [[0, 1)] draws in that
    many successive calls from the engine it is given, in order. *)
Theorem gen_random_spec (engine : Type)
    (uniform_real_distribution : double -> double -> engine -> double * engine)
    (size rank n_pes : Z) (g : engine) :
  0 <= size <= 2 ^ 31 -> 1 <= n_pes < 2 ^ 31 -> 0 <= rank < n_pes ->
  exists v,
    _gen_random engine uniform_real_distribution size rank n_pes g = Some v /\
    length v = Z.to_nat (get_node_portion size n_pes rank) /\
    v = draws (uniform_real_distribution (double_of_int 0) (double_of_int 1))
              g (Z.to_nat (get_node_portion size n_pes rank)) /\
    Forall (fun x => exists g',
              x = fst (uniform_real_distribution (double_of_int 0)
                                                 (double_of_int 1) g')) v.
Proof. apply gen_random_some. Qed.

Lemma gen_random_spec_witness :
  exists v,
    _gen_random Z counter_real 10 3 4 0 = Some v /\
    length v = Z.to_nat (get_node_portion 10 4 3) /\
    v = draws (counter_real (double_of_int 0) (double_of_int 1))
              0 (Z.to_nat (get_node_portion 10 4 3)) /\
    Forall (fun x => exists g',
              x = fst (counter_real (double_of_int 0) (double_of_int 1) g')) v.
Proof. apply (gen_random_spec Z counter_real 10 3 4 0); lia. Defined.

(** X12. For [1 <= P < 2^31] and a rank [0 <= r < P],
    [generate_random_inputs] returns four columns of the same length,
    [get_node_portion(10, P, r)]; both key columns lie within [[0, 6]], the
    last column is this rank's part of [0 .. 9], and the join of the rank
    on these columns returns: it never reads a payload out of bounds. This
    holds for all engines, provided the integer distribution keeps to its
    bounds. *)
Theorem generate_random_inputs_spec (engine : Type)
    (uniform_real_distribution : double -> double -> engine -> double * engine)
    (uniform_int_distribution : Z -> Z -> engine -> Z * engine)
    (rank n_pes : Z) (e1 e2 e3 : engine) :
  1 <= n_pes < 2 ^ 31 -> 0 <= rank < n_pes ->
  (forall a b g', a <= b -> a <= fst (uniform_int_distribution a b g') <= b) ->
  exists i,
    generate_random_inputs engine uniform_real_distribution
      uniform_int_distribution rank n_pes e1 e2 e3 = Some i /\
    (let n := Z.to_nat (get_node_portion 10 n_pes rank) in
     length (in_keys1 i) = n /\ length (in_keys2 i) = n /\
     length (in_data0 i) = n /\ length (in_data1 i) = n) /\
    Forall (fun k => 0 <= k <= 6) (in_keys1 i) /\
    Forall (fun k => 0 <= k <= 6) (in_keys2 i) /\
    in_data1 i = Zrange (get_start 10 n_pes rank) (get_end 10 n_pes rank) /\
    exists out, join_on i = Some out.
Proof.
  intros Hp Hr Hdist. unfold generate_random_inputs.
  destruct (gen_random_int32_some engine uniform_int_distribution
              6 10 rank n_pes e1) as (k1 & -> & Hl1 & Hk1); try lia;
    [exact Hdist|].
  destruct (gen_random_int32_some engine uniform_int_distribution
              6 10 rank n_pes e2) as (k2 & -> & Hl2 & Hk2); try lia;
    [exact Hdist|].
  destruct (gen_random_some engine uniform_real_distribution
              10 rank n_pes e3) as (d0 & -> & Hl0 & _ & _); try lia.
  rewrite gen_range32_slice by lia. cbn [bind ret].
  assert (Hl3 : length (Zrange (get_start 10 n_pes rank)
                               (get_end 10 n_pes rank))
                = Z.to_nat (get_node_portion 10 n_pes rank)).
  { rewrite Zrange_length, get_node_portion_diff by lia. reflexivity. }
  eexists. split; [reflexivity|]. cbn [in_keys1 in_keys2 in_data0 in_data1].
  repeat split; try assumption.
  pose proof (portion_bounds 10 n_pes rank ltac:(lia) Hp Hr) as Hn.
  apply join_on_returns; cbn [in_keys2 in_data0 in_data1]; lia.
Qed.

Lemma generate_random_inputs_spec_witness :
  exists i,
    generate_random_inputs Z counter_real counter_int 1 4 0 7 9 = Some i /\
    (let n := Z.to_nat (get_node_portion 10 4 1) in
     length (in_keys1 i) = n /\ length (in_keys2 i) = n /\
     length (in_data0 i) = n /\ length (in_data1 i) = n) /\
    Forall (fun k => 0 <= k <= 6) (in_keys1 i) /\
    Forall (fun k => 0 <= k <= 6) (in_keys2 i) /\
    in_data1 i = Zrange (get_start 10 4 1) (get_end 10 4 1) /\
    exists out, join_on i = Some out.
Proof.
  apply (generate_random_inputs_spec Z counter_real counter_int 1 4 0 7 9);
    try lia.
  intros a b g'. apply counter_int_range.
Defined.

(* ================================================================== *)
(** * Further properties of the local join *)
(* ================================================================== *)

Section JoinRows.

Variables (keys2 : list Z) (data0 : list double) (data1 : list Z).

Lemma join_rows_app (ka kb : list Z) :
  join_rows keys2 data0 data1 (ka ++ kb) =
  (ra <- join_rows keys2 data0 data1 ka ;;
   rb <- join_rows keys2 data0 data1 kb ;;
   ret (ra ++ rb)).
Proof.
  induction ka as [|k ka IH]; cbn [app join_rows].
  - cbn. now destruct (join_rows keys2 data0 data1 kb).
  - destruct (emit_rows keys2 data0 data1 k) as [rs|]; [|reflexivity].
    cbn [bind]. rewrite IH.
    destruct (join_rows keys2 data0 data1 ka) as [ra|]; [|reflexivity].
    cbn [bind].
    destruct (join_rows keys2 data0 data1 kb) as [rb|]; [|reflexivity].
    cbn. now rewrite app_assoc.
Qed.

Lemma has_key_In (keys : list Z) (k : Z) : has_key keys k = true <-> In k keys.
Proof.
  unfold has_key. rewrite existsb_exists. split.
  - intros (x & Hx & Heq). apply Z.eqb_eq in Heq. now subst.
  - intros Hk. exists k. split; [assumption|apply Z.eqb_refl].
Qed.

(** The key a build key contributes: itself when the probe side holds it. *)
Lemma emit_rows_keys (k : Z) (rs : list row) :
  emit_rows keys2 data0 data1 k = Some rs ->
  map row_key rs = if has_key keys2 k then [k] else [].
Proof.
  unfold emit_rows.
  destruct (Nat.ltb_spec (std_find keys2 k) (length keys2)) as [Hlt|Hge].
  - apply std_find_found in Hlt. apply has_key_In in Hlt. rewrite Hlt.
    destruct (at_int data0 _) as [a|]; [|discriminate].
    destruct (at_int data1 _) as [b|]; [|discriminate].
    now intros [= <-].
  - intros [= <-].
    destruct (has_key keys2 k) eqn:Hk; [|reflexivity].
    apply has_key_In, std_find_found in Hk. lia.
Qed.

Lemma join_rows_keys (keys1 : list Z) :
  forall rs, join_rows keys2 data0 data1 keys1 = Some rs ->
    map row_key rs = filter (has_key keys2) keys1.
Proof.
  induction keys1 as [|k keys1 IH]; intros rs; cbn [join_rows filter].
  - now intros [= <-].
  - destruct (emit_rows keys2 data0 data1 k) as [rk|] eqn:Hk; [|discriminate].
    destruct (join_rows keys2 data0 data1 keys1) as [rr|]; [|discriminate].
    cbn. intros [= <-]. rewrite map_app, (IH rr eq_refl).
    rewrite (emit_rows_keys k rk Hk). now destruct (has_key keys2 k).
Qed.

(** Running the loop again on the keys it emitted emits the same rows. *)
Lemma join_rows_again (keys1 : list Z) :
  forall rs, join_rows keys2 data0 data1 keys1 = Some rs ->
    join_rows keys2 data0 data1 (map row_key rs) = Some rs.
Proof.
  induction keys1 as [|k keys1 IH]; intros rs; cbn [join_rows].
  - now intros [= <-].
  - destruct (emit_rows keys2 data0 data1 k) as [rk|] eqn:Hk; [|discriminate].
    destruct (join_rows keys2 data0 data1 keys1) as [rr|]; [|discriminate].
    cbn. intros [= <-]. rewrite map_app, join_rows_app, (IH rr eq_refl).
    pose proof (emit_rows_keys k rk Hk) as Hkeys. rewrite Hkeys.
    destruct (has_key keys2 k); cbn [join_rows].
    + rewrite Hk. cbn. now rewrite app_nil_r.
    + destruct rk; [reflexivity|discriminate].
Qed.

End JoinRows.

Section JoinAlgebra.

Lemma first_match_rows_cons (x : Z) (keys2 : list Z) (a : double)
    (data0 : list double) (b : Z) (data1 : list Z) (k : Z) :
  first_match_rows (x :: keys2) (a :: data0) (b :: data1) k =
  if x =? k then Some [(k, a, b)] else first_match_rows keys2 data0 data1 k.
Proof.
  unfold first_match_rows. cbn [std_find length].
  destruct (x =? k); reflexivity.
Qed.

Lemma filter_key_absent (keys2 : list Z) (k : Z) :
  ~ In k keys2 -> forall data0 data1,
  filter (fun r => row_key r =? k) (probe_rows keys2 data0 data1) = [].
Proof.
  unfold probe_rows.
  induction keys2 as [|x keys2 IH]; intros Hk [|a data0] [|b data1];
    try reflexivity.
  cbn [combine filter row_key fst].
  destruct (Z.eqb_spec x k) as [->|Hne]; [exfalso; apply Hk; now left|].
  apply IH. intros Hin. apply Hk. now right.
Qed.

(** With distinct probe keys the first match of a key is its only match. *)
Lemma first_match_rows_unique (keys2 : list Z) :
  NoDup keys2 -> forall data0 data1 k,
  length keys2 = length data0 -> length keys2 = length data1 ->
  first_match_rows keys2 data0 data1 k =
  Some (filter (fun r => row_key r =? k) (probe_rows keys2 data0 data1)).
Proof.
  induction 1 as [|x keys2 Hx Hnd IH]; intros [|a data0] [|b data1] k H0 H1;
    try discriminate; [reflexivity|].
  rewrite first_match_rows_cons. unfold probe_rows.
  cbn [combine filter row_key fst].
  destruct (Z.eqb_spec x k) as [->|Hne].
  - fold (probe_rows keys2 data0 data1). now rewrite filter_key_absent.
  - apply IH; cbn in *; lia.
Qed.

Lemma join_rows_ext (keys2 keys2' : list Z) (data0 data0' : list double)
    (data1 data1' : list Z) (keys1 : list Z) :
  (forall k, In k keys1 ->
     emit_rows keys2 data0 data1 k = emit_rows keys2' data0' data1' k) ->
  join_rows keys2 data0 data1 keys1 = join_rows keys2' data0' data1' keys1.
Proof.
  induction keys1 as [|k keys1 IH]; intros Hext; [reflexivity|].
  cbn [join_rows]. rewrite Hext by now left.
  rewrite IH; [reflexivity|]. intros k' Hk'. apply Hext. now right.
Qed.

(** An [int] index that is not negative lies at or before the match, so
    within the first [length keys2] elements of a payload vector. *)
Lemma emit_rows_firstn (keys2 : list Z) (data0 : list double)
    (data1 : list Z) (k : Z) :
  emit_rows keys2 (firstn (length keys2) data0) (firstn (length keys2) data1) k
  = emit_rows keys2 data0 data1 k.
Proof.
  unfold emit_rows, at_int, at_.
  destruct (Nat.ltb_spec (std_find keys2 k) (length keys2)) as [Hlt|Hge];
    [|reflexivity].
  pose proof (index_of_le (std_find keys2 k)) as Hle.
  destruct (Z.ltb_spec (index_of (std_find keys2 k)) 0) as [Hneg|Hpos];
    [reflexivity|].
  rewrite !nth_error_firstn.
  replace (Z.to_nat (index_of (std_find keys2 k)) <? length keys2)%nat
    with true by (symmetry; apply Nat.ltb_lt; lia).
  reflexivity.
Qed.

Lemma std_find_app (l l' : list Z) (k : Z) :
  std_find (l ++ l') k =
  if has_key l k then std_find l k else (length l + std_find l' k)%nat.
Proof.
  induction l as [|x l IH]; [reflexivity|].
  unfold has_key in *. cbn [app std_find existsb length].
  rewrite (Z.eqb_sym k x). destruct (x =? k); [reflexivity|].
  cbn [orb]. rewrite IH. now destruct (existsb (Z.eqb k) l).
Qed.

(** Probe rows appended after rows that already hold their keys are never
    reached: the match is found before them, and an [int] index that is not
    negative lies at or before the match. *)
Lemma emit_rows_app (keys2 keys2' : list Z) (data0 data0' : list double)
    (data1 data1' : list Z) (k : Z) :
  length keys2 = length data0 -> length keys2 = length data1 ->
  (forall x, In x keys2' -> In x keys2) ->
  emit_rows (keys2 ++ keys2') (data0 ++ data0') (data1 ++ data1') k =
  emit_rows keys2 data0 data1 k.
Proof.
  intros H0 H1 Hsub. unfold emit_rows, at_int, at_.
  rewrite std_find_app, length_app.
  destruct (has_key keys2 k) eqn:Hk.
  - apply has_key_In, std_find_found in Hk.
    replace (std_find keys2 k <? length keys2 + length keys2')%nat with true
      by (symmetry; apply Nat.ltb_lt; lia).
    replace (std_find keys2 k <? length keys2)%nat with true
      by (symmetry; apply Nat.ltb_lt; lia).
    pose proof (index_of_le (std_find keys2 k)) as Hle.
    destruct (Z.ltb_spec (index_of (std_find keys2 k)) 0) as [Hneg|Hpos];
      [reflexivity|].
    rewrite !nth_error_app1 by lia. reflexivity.
  - assert (Hk2 : ~ In k keys2)
      by (intros Hin; apply has_key_In in Hin; congruence).
    assert (Hk2' : ~ In k keys2') by (intros Hin; apply Hk2, Hsub, Hin).
    rewrite <- std_find_found in Hk2, Hk2'.
    pose proof (std_find_le keys2 k). pose proof (std_find_le keys2' k).
    replace (length keys2 + std_find keys2' k <? length keys2 + length keys2')%nat
      with false by (symmetry; apply Nat.ltb_ge; lia).
    replace (std_find keys2 k <? length keys2)%nat with false
      by (symmetry; apply Nat.ltb_ge; lia).
    reflexivity.
Qed.

Lemma rows_with_key_app (k : Z) (rs rs' : list row) :
  rows_with_key k (rs ++ rs') = (rows_with_key k rs + rows_with_key k rs')%nat.
Proof. unfold rows_with_key. now rewrite filter_app, length_app. Qed.

Lemma rows_with_key_filter (k x : Z) (rs : list row) :
  rows_with_key k (filter (fun r => row_key r =? x) rs) =
  if x =? k then rows_with_key k rs else O.
Proof.
  unfold rows_with_key. induction rs as [|r rs IH]; cbn [filter].
  - now destruct (x =? k).
  - destruct (Z.eqb_spec (row_key r) x) as [Hrx|Hrx]; cbn [filter].
    + destruct (Z.eqb_spec (row_key r) k) as [Hrk|Hrk];
        destruct (Z.eqb_spec x k) as [Hxk|Hxk]; try congruence;
        cbn [length]; rewrite IH; reflexivity.
    + destruct (Z.eqb_spec (row_key r) k) as [Hrk|Hrk];
        destruct (Z.eqb_spec x k) as [Hxk|Hxk]; try congruence;
        cbn [length]; rewrite IH; reflexivity.
Qed.

(** The nested-loop join has [m * n] rows for a key held [m] times by the
    build column and by [n] probe rows. *)
Lemma equi_join_count (k : Z) (keys1 : list Z) (probe : list row) :
  rows_with_key k (equi_join keys1 probe) =
  (occurrences k [keys1] * rows_with_key k probe)%nat.
Proof.
  unfold equi_join, occurrences. cbn [concat]. rewrite app_nil_r.
  induction keys1 as [|x keys1 IH]; [reflexivity|].
  cbn [flat_map filter]. rewrite rows_with_key_app, rows_with_key_filter, IH.
  destruct (x =? k); cbn [length]; lia.
Qed.

Lemma probe_rows_count (k : Z) (keys2 : list Z) :
  forall data0 data1,
    length keys2 = length data0 -> length keys2 = length data1 ->
    rows_with_key k (probe_rows keys2 data0 data1) = occurrences k [keys2].
Proof.
  unfold rows_with_key, probe_rows, occurrences. cbn [concat].
  rewrite app_nil_r.
  induction keys2 as [|x keys2 IH]; intros [|a data0] [|b data1] H0 H1;
    try discriminate; [reflexivity|].
  cbn [combine filter row_key fst].
  destruct (x =? k); cbn [length]; rewrite IH; cbn in *; lia.
Qed.

(** The chunks of a build column joined one by one against the same probe
    relation give the rows of the whole column, chunk after chunk. *)
Lemma join_rows_concat (keys2 : list Z) (data0 : list double)
    (data1 : list Z) (chunks : list (list Z)) :
  forall rs, join_rows keys2 data0 data1 (concat chunks) = Some rs ->
    Forall (fun c => exists out, local_join_impl c keys2 data0 data1 = Some out)
           chunks /\
    flat_map (fun c => rows_of_result (local_join_impl c keys2 data0 data1))
             chunks = rs.
Proof.
  induction chunks as [|c chunks IH]; intros rs; cbn [concat map flat_map].
  - intros [= <-]. now split.
  - rewrite join_rows_app, local_join_rows.
    destruct (join_rows keys2 data0 data1 c) as [rc|] eqn:Hc; [|discriminate].
    destruct (join_rows keys2 data0 data1 (concat chunks)) as [rr|];
      [|cbn; discriminate].
    cbn [bind ret rows_of_result]. intros [= <-].
    destruct (IH rr eq_refl) as (Hf & Hr).
    split.
    + constructor; [|assumption].
      exists (chunk_of_rows rc). now rewrite local_join_rows, Hc.
    + now rewrite rows_of_chunk_of_rows, Hr.
Qed.

End JoinAlgebra.

(** X13. The key column [local_join_impl] returns is [keys1] with the keys
    that [keys2] does not hold removed, in the order of [keys1]: the join is
    a semi-join of the build column by the probe keys. *)
Theorem join_keys_are_build_keys_in_probe (keys1 keys2 : list Z)
    (data0 : list double) (data1 : list Z) (ks : list Z) (a : list double)
    (b : list Z) :
  local_join_impl keys1 keys2 data0 data1 = Some (ks, a, b) ->
  ks = filter (has_key keys2) keys1.
Proof.
  intros Hout. apply local_join_some in Hout as (rs & Hrs & Hout).
  apply join_rows_keys in Hrs. rewrite <- Hrs.
  unfold chunk_of_rows in Hout. now injection Hout as -> _ _.
Qed.

Lemma join_keys_are_build_keys_in_probe_witness :
  [0; 1; 1] = filter (has_key [1; 0; 4]) [0; 1; 1].
Proof.
  apply (join_keys_are_build_keys_in_probe
           [0; 1; 1] [1; 0; 4] (map double_of_int [1; 2; 3]) [4; 1; 2]
           [0; 1; 1] (map double_of_int [2; 1; 1]) [1; 4; 4]).
  reflexivity.
Defined.

(** X14. Joining a build column that is two columns one after the other
    gives the two outputs one after the other, column by column; it reads
    out of bounds exactly when one of the two joins does. *)
Theorem join_of_appended_build_keys (ka kb keys2 : list Z)
    (data0 : list double) (data1 : list Z) :
  local_join_impl (ka ++ kb) keys2 data0 data1 =
  (oa <- local_join_impl ka keys2 data0 data1 ;;
   ob <- local_join_impl kb keys2 data0 data1 ;;
   ret (chunk_app oa ob)).
Proof.
  rewrite !local_join_rows, join_rows_app.
  destruct (join_rows keys2 data0 data1 ka) as [ra|]; [|reflexivity].
  destruct (join_rows keys2 data0 data1 kb) as [rb|]; [|reflexivity].
  cbn [bind ret]. rewrite chunk_of_rows_app. reflexivity.
Qed.

(** X15. When every rank holds the whole probe relation and a chunk of the
    build column, and the join of the whole build column returns, then every
    rank's join returns and the rows of all ranks, taken in rank order, are
    the rows of the join of the whole build column: with a replicated probe
    relation the output does not depend on how the build column is split. *)
Theorem replicated_probe_join (chunks : list (list Z)) (keys2 : list Z)
    (data0 : list double) (data1 : list Z) (out : chunk) :
  local_join_impl (concat chunks) keys2 data0 data1 = Some out ->
  let inputs := map (fun c => mk_input c keys2 data0 data1) chunks in
  Forall (fun o => exists c, o = Some c) (spmd_run inputs) /\
  global_rows (spmd_run inputs) = rows_of out.
Proof.
  intros Hout. cbv zeta.
  apply local_join_some in Hout as (rs & Hrs & ->).
  apply join_rows_concat in Hrs as (Hall & Hrows).
  unfold spmd_run, global_rows. rewrite map_map. split.
  - apply Forall_map. exact Hall.
  - rewrite rows_of_chunk_of_rows, <- Hrows.
    rewrite flat_map_concat_map, map_map, <- flat_map_concat_map.
    reflexivity.
Qed.

Lemma replicated_probe_join_witness :
  Forall (fun o => exists c, o = Some c)
    (spmd_run (map (fun c => mk_input c keys2_global data0_global data1_global)
                   [[0; 1; 1]; [2; 1; 0]])) /\
  global_rows
    (spmd_run (map (fun c => mk_input c keys2_global data0_global data1_global)
                   [[0; 1; 1]; [2; 1; 0]])) =
  rows_of (chunk_of_rows
             [example_row 0 2 1; example_row 1 1 4; example_row 1 1 4;
              example_row 2 4 3; example_row 1 1 4; example_row 0 2 1]).
Proof.
  apply (replicated_probe_join [[0; 1; 1]; [2; 1; 0]]
           keys2_global data0_global data1_global).
  reflexivity.
Defined.

(** X16. When the probe keys are pairwise distinct, the three probe columns
    have the same length and that length is at most [2^31], [local_join_impl]
    returns the inner equi-join of the build column with the probe rows, and
    a key that occurs [m] times in [keys1] and [n] times in [keys2] has
    [m * n] output rows. *)
Theorem join_with_distinct_probe_keys (keys1 keys2 : list Z)
    (data0 : list double) (data1 : list Z) :
  Z.of_nat (length keys2) <= 2 ^ 31 ->
  NoDup keys2 -> length keys2 = length data0 -> length keys2 = length data1 ->
  local_join_impl keys1 keys2 data0 data1 =
    Some (chunk_of_rows (equi_join keys1 (probe_rows keys2 data0 data1))) /\
  forall k,
    rows_with_key k (equi_join keys1 (probe_rows keys2 data0 data1)) =
    (occurrences k [keys1] * occurrences k [keys2])%nat.
Proof.
  intros Hlen Hnd H0 H1. split.
  - rewrite local_join_rows.
    assert (Hrows : join_rows keys2 data0 data1 keys1 =
                    Some (equi_join keys1 (probe_rows keys2 data0 data1))).
    { unfold equi_join. induction keys1 as [|k keys1 IH]; [reflexivity|].
      cbn [join_rows flat_map].
      rewrite emit_rows_first_match by assumption.
      rewrite first_match_rows_unique, IH by assumption.
      reflexivity. }
    now rewrite Hrows.
  - intros k. now rewrite equi_join_count, probe_rows_count.
Qed.

Lemma join_with_distinct_probe_keys_witness :
  local_join_impl keys1_global keys2_global data0_global data1_global =
    Some (chunk_of_rows
            (equi_join keys1_global
               (probe_rows keys2_global data0_global data1_global))) /\
  forall k,
    rows_with_key k
      (equi_join keys1_global
         (probe_rows keys2_global data0_global data1_global)) =
    (occurrences k [keys1_global] * occurrences k [keys2_global])%nat.
Proof.
  apply (join_with_distinct_probe_keys
           keys1_global keys2_global data0_global data1_global);
    [cbn; lia| |reflexivity|reflexivity].
  repeat constructor; cbn; lia.
Defined.

(** X17. Payload elements at indices that [keys2] does not have are never
    read: cutting both payload vectors down to the length of [keys2] changes
    nothing, neither the output nor whether the join reads out of bounds. *)
Theorem join_ignores_payload_tail (keys1 keys2 : list Z)
    (data0 : list double) (data1 : list Z) :
  local_join_impl keys1 keys2
    (firstn (length keys2) data0) (firstn (length keys2) data1) =
  local_join_impl keys1 keys2 data0 data1.
Proof.
  rewrite !local_join_rows.
  rewrite (join_rows_ext keys2 keys2 _ data0 _ data1); [reflexivity|].
  intros k _. apply emit_rows_firstn.
Qed.

(** X18. Joining the key column of an output against the same probe
    relation returns that output again. *)
Theorem join_of_output_keys (keys1 keys2 : list Z) (data0 : list double)
    (data1 : list Z) (ks : list Z) (a : list double) (b : list Z) :
  local_join_impl keys1 keys2 data0 data1 = Some (ks, a, b) ->
  local_join_impl ks keys2 data0 data1 = Some (ks, a, b).
Proof.
  intros Hout. apply local_join_some in Hout as (rs & Hrs & Hout).
  apply join_rows_again in Hrs. rewrite Hout.
  assert (Hks : ks = map row_key rs)
    by (unfold chunk_of_rows in Hout; now injection Hout).
  rewrite Hks, local_join_rows, Hrs. reflexivity.
Qed.

Lemma join_of_output_keys_witness :
  local_join_impl [0; 1; 1] [1; 0; 4] (map double_of_int [1; 2; 3]) [4; 1; 2] =
  Some ([0; 1; 1], map double_of_int [2; 1; 1], [1; 4; 4]).
Proof.
  apply (join_of_output_keys [0; 1; 5; 1] [1; 0; 4]
           (map double_of_int [1; 2; 3]) [4; 1; 2]).
  reflexivity.
Defined.

(** X19. Probe rows appended behind a probe relation whose three columns
    have the same length, with keys the relation already holds, change
    nothing, neither the output nor whether the join reads out of bounds:
    every match is found before the appended rows, and the [int] index the
    payloads are read at is negative (then both joins read out of bounds) or
    lies at or before the match. *)
Theorem join_ignores_later_duplicates (keys1 keys2 keys2' : list Z)
    (data0 data0' : list double) (data1 data1' : list Z) :
  length keys2 = length data0 -> length keys2 = length data1 ->
  (forall x, In x keys2' -> In x keys2) ->
  local_join_impl keys1 (keys2 ++ keys2') (data0 ++ data0') (data1 ++ data1') =
  local_join_impl keys1 keys2 data0 data1.
Proof.
  intros H0 H1 Hsub. rewrite !local_join_rows.
  rewrite (join_rows_ext (keys2 ++ keys2') keys2 _ data0 _ data1);
    [reflexivity|].
  intros k _. now apply emit_rows_app.
Qed.

Lemma join_ignores_later_duplicates_witness :
  local_join_impl [1; 0] ([1; 0] ++ [1; 1])
    (map double_of_int [1; 2] ++ map double_of_int [7; 8]) ([4; 1] ++ [9; 9]) =
  local_join_impl [1; 0] [1; 0] (map double_of_int [1; 2]) [4; 1].
Proof.
  apply (join_ignores_later_duplicates [1; 0] [1; 0] [1; 1]);
    [reflexivity|reflexivity|].
  intros x [<-|[<-|[]]]; now left.
Defined.

(* ================================================================== *)
(** * Properties of the driver *)
(* ================================================================== *)

(** What rank 0 of 2 writes, line by line. *)
Module DriverExample.
Import String.

Lemma main_rank0_of_2 :
  main 0 2 =
  Some
    ["Rank 0, input:"%string;
     "| keys1 |  | keys2 |   data0   | data1 |"%string;
     "|     0 |  |     1 |  1.000000 |     4 |"%string;
     "|     1 |  |     0 |  2.000000 |     1 |"%string;
     "|     1 |  |     4 |  3.000000 |     2 |"%string;
     "Rank 0, output:"%string;
     "| key |   data0   | data1 |"%string;
     "|   0 |  2.000000 |     1 |"%string;
     "|   1 |  1.000000 |     4 |"%string;
     "|   1 |  1.000000 |     4 |"%string].
Proof. vm_compute. reflexivity. Qed.

End DriverExample.

Module DriverProperties.

Section PrintLoop.

Lemma iterate_lines (line : nat -> UB String.string) (k : nat) :
  forall (j0 : nat) (out ls : list String.string),
    length ls = k ->
    (forall j, (j < k)%nat -> line (j0 + j)%nat = nth_error ls j) ->
    iterate k (Z.of_nat j0)
      (fun i out => l <- line (Z.to_nat i) ;; ret (out ++ [l])) out =
    Some (out ++ ls).
Proof.
  induction k as [|k IH]; intros j0 out ls Hlen Hline.
  - destruct ls; [|discriminate]. cbn. now rewrite app_nil_r.
  - destruct ls as [|l ls]; [discriminate|].
    cbn [iterate]. rewrite Nat2Z.id.
    pose proof (Hline O ltac:(lia)) as H0. rewrite Nat.add_0_r in H0.
    rewrite H0. cbn [nth_error bind ret].
    replace (Z.of_nat j0 + 1) with (Z.of_nat (S j0)) by lia.
    rewrite (IH (S j0) (out ++ [l]) ls).
    + now rewrite <- app_assoc.
    + cbn in Hlen. lia.
    + intros j Hj. specialize (Hline (S j) ltac:(lia)).
      cbn [nth_error] in Hline. rewrite <- Hline. f_equal. lia.
Qed.

(** A print loop whose body finds its line in a list prints that list. *)
Lemma print_lines_spec (n : nat) (line : nat -> UB String.string)
    (out ls : list String.string) :
  n = length ls ->
  (forall j, (j < length ls)%nat -> line j = nth_error ls j) ->
  print_lines n line out = Some (out ++ ls).
Proof.
  intros -> Hline. unfold print_lines, for_loop.
  replace (Z.to_nat (Z.of_nat (length ls) - 0)) with (length ls) by lia.
  apply (iterate_lines line (length ls) O out ls eq_refl). exact Hline.
Qed.

(** A print loop whose body always returns prints one line per index. *)
Lemma print_lines_total (line : nat -> UB String.string) (n : nat) :
  (forall j, (j < n)%nat -> exists l, line j = Some l) ->
  forall out, exists ls,
    length ls = n /\ print_lines n line out = Some (out ++ ls).
Proof.
  intros Hline out.
  assert (Hls : exists ls, length ls = n /\
            forall j, (j < n)%nat -> line j = nth_error ls j).
  { induction n as [|n IH].
    - exists []. split; [reflexivity|]. intros j Hj. lia.
    - destruct IH as (ls & Hlen & Hnth); [intros j Hj; apply Hline; lia|].
      destruct (Hline n ltac:(lia)) as (l & Hl).
      exists (ls ++ [l]). split; [rewrite length_app; cbn; lia|].
      intros j Hj. destruct (Nat.eq_dec j n) as [->|Hne].
      + rewrite nth_error_app2, Hlen, Nat.sub_diag by lia. exact Hl.
      + rewrite nth_error_app1 by lia. apply Hnth. lia. }
  destruct Hls as (ls & Hlen & Hnth). exists ls. split; [assumption|].
  subst n. now apply print_lines_spec.
Qed.

Lemma input_line_returns (k1 k2 : list Z) (d1 : list double) (d2 : list Z)
    (j : nat) :
  (length k2 <= length d1)%nat -> (length k2 <= length d2)%nat ->
  exists l, input_line k1 k2 d1 d2 j = Some l.
Proof.
  intros H1 H2. unfold input_line, at_.
  destruct (Nat.ltb_spec j (length k1)) as [Hj1|Hj1].
  - destruct (nth_error k1 j) as [x|] eqn:Hx;
      [|apply nth_error_None in Hx; lia].
    cbn [bind ret].
    destruct (Nat.ltb_spec j (length k2)) as [Hj2|Hj2];
      [|now eexists].
    destruct (nth_error k2 j) as [y|] eqn:Hy;
      [|apply nth_error_None in Hy; lia].
    destruct (nth_error d1 j) as [a|] eqn:Ha;
      [|apply nth_error_None in Ha; lia].
    destruct (nth_error d2 j) as [b|] eqn:Hb;
      [|apply nth_error_None in Hb; lia].
    now eexists.
  - cbn [bind ret].
    destruct (Nat.ltb_spec j (length k2)) as [Hj2|Hj2];
      [|now eexists].
    destruct (nth_error k2 j) as [y|] eqn:Hy;
      [|apply nth_error_None in Hy; lia].
    destruct (nth_error d1 j) as [a|] eqn:Ha;
      [|apply nth_error_None in Ha; lia].
    destruct (nth_error d2 j) as [b|] eqn:Hb;
      [|apply nth_error_None in Hb; lia].
    now eexists.
Qed.

Lemma output_line_row (rs : list row) :
  forall j, (j < length (map row_line rs))%nat ->
  output_line (map (fun r => fst (fst r)) rs) (map (fun r => snd (fst r)) rs)
              (map snd rs) j =
  nth_error (map row_line rs) j.
Proof.
  unfold output_line, at_.
  induction rs as [|[[k a] b] rs IH]; intros [|j] Hj; cbn [map length] in Hj;
    try lia; cbn [map nth_error fst snd].
  - reflexivity.
  - apply IH. lia.
Qed.

End PrintLoop.

(** X20. For every participant count [1 <= P < 2^31] and rank [0 <= r < P],
    [main] runs to its end without reading a vector out of bounds. It prints
    the two header lines of the input table, one line per row of the rank's
    chunk, the two header lines of the output table, and then exactly the
    rows the join returned, one formatted line per row, in order. *)
Theorem main_prints_the_join (rank n_pes : Z) :
  1 <= n_pes < 2 ^ 31 -> 0 <= rank < n_pes ->
  exists (input_lines : list String.string) (out : chunk),
    join_on (generate_example_inputs rank n_pes) = Some out /\
    length input_lines = Z.to_nat (get_node_portion 6 n_pes rank) /\
    main rank n_pes =
    Some (rank_line rank input_title :: input_header :: input_lines
          ++ rank_line rank output_title :: output_header
          :: map row_line (rows_of out)).
Proof.
  intros Hp Hr.
  destruct (example_lengths rank n_pes Hp Hr) as (Hl1 & Hl2 & Hl3 & Hl4).
  cbv zeta in *. unfold main.
  set (i := generate_example_inputs rank n_pes) in *.
  destruct (print_lines_total
              (input_line (in_keys1 i) (in_keys2 i) (in_data0 i) (in_data1 i))
              (Nat.max (length (in_keys1 i)) (length (in_keys2 i))))
    with (out := [rank_line rank input_title; input_header])
    as (ls & Hlen & Hprint).
  { intros j _. apply input_line_returns; lia. }
  rewrite Hprint. cbn [bind].
  pose proof (portion_bounds 6 n_pes rank ltac:(lia) Hp Hr) as Hn.
  destruct (join_on_returns i ltac:(lia) ltac:(lia) ltac:(lia))
    as (out & Hout).
  exists ls, out. split; [exact Hout|]. split; [lia|].
  unfold join_on in Hout. rewrite Hout. cbn [bind].
  unfold parallel_join_impl in Hout.
  apply local_join_some in Hout as (rs & _ & ->).
  rewrite rows_of_chunk_of_rows. unfold chunk_of_rows. cbv beta iota.
  rewrite (print_lines_spec _ _ _ (map row_line rs));
    [|now rewrite !length_map|intros j Hj; now apply output_line_row].
  cbn [app]. rewrite <- app_assoc. reflexivity.
Qed.

Lemma main_prints_the_join_witness :
  exists (input_lines : list String.string) (out : chunk),
    join_on (generate_example_inputs 1 2) = Some out /\
    length input_lines = Z.to_nat (get_node_portion 6 2 1) /\
    main 1 2 =
    Some (rank_line 1 input_title :: input_header :: input_lines
          ++ rank_line 1 output_title :: output_header
          :: map row_line (rows_of out)).
Proof. apply (main_prints_the_join 1 2); lia. Defined.

End DriverProperties.
